(** * Session orchestrator of the game server ([src/master.ts])

    A shallow embedding of the [Master] class: the identity-store adapter
    ([dbGet], [dbSet]), the broadcast router ([broadcast]), respawn resolution
    ([tryRespawn]), the message dispatcher ([handleMSG]) and the access-code
    rotation ([randomizeAccess]), followed by the properties of the
    specification that concern them.

    Every handler is modelled as one atomic transition of the orchestrator's
    state (the specification assumes handlers run one at a time with respect
    to the shared registries). *)

From Stdlib Require Import ZArith QArith Qround Qpower Lia Lqa Ascii String.
From stdpp Require Import base option list sorting gmap strings.

Open Scope Z_scope.

(** ** JavaScript values *)

Module JS.

(** A JavaScript string is a sequence of UTF-16 code units; [length] counts
    code units, exactly as [String.prototype.length]. *)
Abbreviation jstring := (list N).

(** A string literal of the source, as a JavaScript string. *)
Definition jstr (s : string) : jstring :=
  Ascii.N_of_ascii <$> String.list_ascii_of_string s.

(** Values carried by a message payload or read from the identity store.
    Numbers are the integers the program works with (access codes, ids, time
    stamps); an object is known by its identity only. *)
Inductive jsval :=
  | JUndef
  | JNull
  | JBool (b : bool)
  | JNum (n : Z)
  | JStr (s : jstring)
  | JObj (o : nat).

#[global] Instance jsval_eq_dec : EqDecision jsval.
Proof. solve_decision. Defined.

(** ToBoolean, as applied by [!x], [x && y] and [if (x)]. *)
Definition truthy (v : jsval) : bool :=
  match v with
  | JUndef | JNull => false
  | JBool b => b
  | JNum n => negb (n =? 0)
  | JStr s => negb (bool_decide (s = []))
  | JObj _ => true
  end.

(** [typeof v == 'string']. *)
Definition is_string (v : jsval) : bool :=
  match v with JStr _ => true | _ => false end.

(** Property access on an object used as a record: a missing property reads
    as [undefined]. *)
Definition field (o : gmap string jsval) (k : string) : jsval :=
  default JUndef (o !! k).

(** White space and line terminators of ECMAScript (the characters removed by
    [trim] and skipped by [parseInt]). *)
Definition is_space (c : N) : bool :=
  ((9 <=? c) && (c <=? 13) || (c =? 32) || (c =? 160) || (c =? 5760)
   || (8192 <=? c) && (c <=? 8202) || (c =? 8232) || (c =? 8233)
   || (c =? 8239) || (c =? 8287) || (c =? 12288) || (c =? 65279))%N.

Fixpoint trimStart (s : jstring) : jstring :=
  match s with
  | c :: s' => if is_space c then trimStart s' else s
  | [] => []
  end.

(** [String.prototype.trim]. *)
Definition trim (s : jstring) : jstring :=
  reverse (trimStart (reverse (trimStart s))).

(** [s.split(sep)[1]] for a one-character separator: the text between the
    first and the second occurrence of [sep], [None] ([undefined]) when [sep]
    does not occur. *)
Fixpoint upto (sep : N) (s : jstring) : jstring :=
  match s with
  | c :: s' => if (c =? sep)%N then [] else c :: upto sep s'
  | [] => []
  end.

Fixpoint split_second (sep : N) (s : jstring) : option jstring :=
  match s with
  | c :: s' => if (c =? sep)%N then Some (upto sep s') else split_second sep s'
  | [] => None
  end.

(** Value of a digit in the given radix. *)
Definition digit_val (radix : Z) (c : N) : option Z :=
  let d :=
    if ((48 <=? c) && (c <=? 57))%N then Some (Z.of_N c - 48)
    else if ((97 <=? c) && (c <=? 122))%N then Some (Z.of_N c - 87)
    else if ((65 <=? c) && (c <=? 90))%N then Some (Z.of_N c - 55)
    else None in
  match d with
  | Some v => if v <? radix then Some v else None
  | None => None
  end.

(** The longest prefix of digits, read most significant first; [None] when
    the text does not start with a digit. *)
Fixpoint digits (radix : Z) (acc : option Z) (s : jstring) : option Z :=
  match s with
  | c :: s' =>
      match digit_val radix c with
      | Some d => digits radix (Some (default 0 acc * radix + d)) s'
      | None => acc
      end
  | [] => acc
  end.

(** [parseInt(s)] without a radix argument; [None] is [NaN].  The result is
    the mathematical integer: rounding to a double is monotone, so it does
    not change a comparison with a time stamp. *)
Definition parseInt (s : jstring) : option Z :=
  let s := trimStart s in
  let '(sign, s) :=
    match s with
    | 45%N :: s' => (-1, s')
    | 43%N :: s' => (1, s')
    | _ => (1, s)
    end in
  let '(radix, s) :=
    match s with
    | 48%N :: 120%N :: s' | 48%N :: 88%N :: s' => (16, s')
    | _ => (10, s)
    end in
  (λ n, sign * n) <$> digits radix None s.

(** [parseInt(v)] for the [string | undefined] produced by indexing a split:
    [undefined] is first converted to the text "undefined", which has no
    digits. *)
Definition parseInt_opt (v : option jstring) : option Z :=
  match v with
  | Some s => parseInt s
  | None => None
  end.

(** [v.split(sep)[1]] for a value read from a document.  The only call is on
    the [session] field of a document the store matched against a string, so
    the value is a string; anything else has no second part here. *)
Definition split1 (sep : N) (v : jsval) : option jstring :=
  match v with
  | JStr s => split_second sep s
  | _ => None
  end.

(** [x > y] for a possibly-[NaN] left operand. *)
Definition num_gt (x : option Z) (y : Z) : bool :=
  match x with
  | Some n => y <? n
  | None => false
  end.

(** *** Numbers that are not integers

    A JavaScript number is an IEEE 754 double.  The one place where the
    program computes with fractions is the draw of the access code, where
    all values are positive and far from overflow; there a double is the
    rational it denotes, and an operation returns the exact result rounded
    to the nearest double, ties to the even significand. *)

(** The exponent [e] with [2^e <= x < 2^(e+1)], for a positive [x]. *)
Definition binade (x : Q) : Z :=
  let e0 := Z.log2 (Qnum x) - Z.log2 (Zpos (Qden x)) in
  if Qle_bool (2 ^ e0)%Q x then e0 else e0 - 1.

(** The distance between neighbouring doubles around [x]: 53 significant
    bits, and the fixed spacing [2^-1074] of the subnormal range. *)
Definition ulp (x : Q) : Q := (2 ^ Z.max (binade x - 52) (-1074))%Q.

(** The nearest integer, a tie going to the even one. *)
Definition round_even (m : Q) : Z :=
  let q := Qfloor m in
  match (m - inject_Z q ?= 1 # 2)%Q with
  | Lt => q
  | Gt => q + 1
  | Eq => if Z.even q then q else q + 1
  end.

Definition RNpos (x : Q) : Q :=
  (inject_Z (round_even (x / ulp x)) * ulp x)%Q.

(** The double nearest to [x]. *)
Definition RN (x : Q) : Q :=
  match (x ?= 0)%Q with
  | Eq => 0%Q
  | Gt => RNpos x
  | Lt => (- RNpos (- x))%Q
  end.

(** [x * y] and [x + y] on numbers. *)
Definition num_mul (x y : Q) : Q := RN (x * y).
Definition num_add (x y : Q) : Q := RN (x + y).

(** What the language runtime supplies and the program takes as given:
    [String.prototype.toLowerCase] (Unicode case mapping), the conversion of
    a string to a number used by [==] ([None] when the text does not denote
    an integer), and the conversion of an object to a primitive (a value
    that is not an object). *)
Class Runtime := {
  toLowerCase : jstring → jstring;
  StringToNumber : jstring → option Z;
  ToPrimitive : nat → jsval
}.

Section loose.
Context `{Runtime}.

(** ToNumber on a primitive that is neither [null] nor [undefined]. *)
Definition prim_to_number (v : jsval) : option Z :=
  match v with
  | JBool b => Some (if b then 1 else 0)
  | JNum n => Some n
  | JStr s => StringToNumber s
  | _ => None
  end.

(** [x == y] on primitives: [null] and [undefined] equal each other and
    nothing else; two strings compare as strings; every other pairing
    compares the operands as numbers. *)
Definition prim_loose_eq (x y : jsval) : bool :=
  match x, y with
  | (JUndef | JNull), (JUndef | JNull) => true
  | (JUndef | JNull), _ | _, (JUndef | JNull) => false
  | JStr a, JStr b => bool_decide (a = b)
  | _, _ =>
      match prim_to_number x, prim_to_number y with
      | Some a, Some b => a =? b
      | _, _ => false
      end
  end.

(** IsLooselyEqual: objects compare by identity with each other and
    through their primitive with anything else. *)
Definition loose_eq (x y : jsval) : bool :=
  match x, y with
  | JObj a, JObj b => bool_decide (a = b)
  | JObj a, (JUndef | JNull) | (JUndef | JNull), JObj a => false
  | JObj a, _ => prim_loose_eq (ToPrimitive a) y
  | _, JObj b => prim_loose_eq x (ToPrimitive b)
  | _, _ => prim_loose_eq x y
  end.
End loose.

End JS.

(** ** The identity store

    The remote store is addressed by the three kinds of path the program
    builds: the rotating registration code, the collection of accounts, and
    one account under its directory key (one path segment: a digest, or a
    key the store itself returned).  A document is a map from field names
    to values; a path with nothing stored reads as [null]. *)

Module Store.
Import JS.

Inductive DBMode := WRITE | UPDATE | REMOVE.

Abbreviation doc := (gmap string jsval).

Inductive Path :=
  | RegAccessCode            (* 'regAccessCode' *)
  | Users                    (* 'users' *)
  | User (key : jstring).    (* `users/${key}` *)

(** What a read returns and a write stores. *)
Inductive dbval :=
  | DNull
  | DVal (v : jsval)
  | DDoc (d : doc)
  | DDocs (ds : list (jstring * doc)).

Record DB := mkDB {
  regAccessCode : option jsval;
  users : gmap jstring doc
}.

(** *** The order of the keys of a snapshot

    The program reads a collection as the object [snap.val()] and takes
    [Object.keys(qryData)[0]].  The store's client builds that object by
    visiting the children in the order of their names (the program sets no
    priorities), and [Object.keys] lists the keys that are array indices
    first, in ascending numeric order, and then the other keys in the order
    in which they were inserted.  The order of names is that of the store's
    [nameCompare]: names that [tryParseInt] reads as 32-bit integers come
    first, by value and then by length, and all other names follow in the
    order of [<] on strings, that is by UTF-16 code units. *)

Definition is_digit (c : N) : bool := ((48 <=? c) && (c <=? 57))%N.

(** The value of a text of decimal digits. *)
Definition numeral (s : jstring) : Z := default 0 (digits 10 None s).

(** An array index of ECMAScript: a canonical numeral ("0", or digits with
    no leading zero) of a value of at most [2^32 - 2]. *)
Definition arrayIndex (k : jstring) : option Z :=
  match k with
  | [] => None
  | c :: rest =>
      if forallb is_digit k
         && (negb (c =? 48)%N || bool_decide (rest = []))
         && (numeral k <=? 4294967294)
      then Some (numeral k)
      else None
  end.

Fixpoint dropZeros (s : jstring) : jstring :=
  match s with
  | 48%N :: s' => dropZeros s'
  | _ => s
  end.

(** The store's [tryParseInt]: the name is an optional minus sign, any
    number of zeros and then one to ten digits, and its value lies between
    [-2^31] and [2^31 - 1]. *)
Definition tryParseInt (k : jstring) : option Z :=
  let '(sign, ds) :=
    match k with
    | 45%N :: ds => (-1, ds)
    | _ => (1, k)
    end in
  if negb (bool_decide (ds = [])) && forallb is_digit ds
     && (length (dropZeros ds) <=? 10)%nat
  then
    let n := sign * numeral ds in
    if (-2147483648 <=? n) && (n <=? 2147483647) then Some n else None
  else None.

(** The place of a key in [Object.keys(snap.val())], as a sequence of
    integers to be compared from left to right: array indices first, by
    value; then the other names the store reads as integers, by value and
    length; then every other name, by code units.  Two names the store's
    comparison does not tell apart (the same integer written at the same
    length, as [00] and [-0]) are put in the order of their code units. *)
Definition keyRank (k : jstring) : list Z :=
  match arrayIndex k with
  | Some n => [0; n]
  | None =>
      match tryParseInt k with
      | Some n => 1 :: n :: Z.of_nat (length k) :: (Z.of_N <$> k)
      | None => 2 :: (Z.of_N <$> k)
      end
  end.

(** Comparison from left to right; a proper prefix comes first. *)
Fixpoint lex_le (a b : list Z) : bool :=
  match a, b with
  | [], _ => true
  | _ :: _, [] => false
  | x :: a', y :: b' => (x <? y) || ((x =? y) && lex_le a' b')
  end.

Definition key_le (a b : jstring) : bool := lex_le (keyRank a) (keyRank b).

(** The children of a collection in the order of [Object.keys]. *)
Definition ordered (m : gmap jstring doc) : list (jstring * doc) :=
  merge_sort (λ a b, Is_true (key_le a.1 b.1)) (map_to_list m).

(** [ref.orderByChild(orderKey).equalTo(orderValue)]: the children whose
    field [orderKey] holds [orderValue], in the order of [Object.keys]. *)
Definition matching (orderKey : string) (orderValue : jsval)
    (m : gmap jstring doc) : list (jstring * doc) :=
  filter (λ kd, field kd.2 orderKey = orderValue) (ordered m).

(** A snapshot with no children does not exist. *)
Definition snapshot (ds : list (jstring * doc)) : dbval :=
  match ds with
  | [] => DNull
  | _ => DDocs ds
  end.

(** [dbGet(path, orderKey?, orderValue?)].  An absent optional argument is
    the empty key, respectively [undefined]; both are falsy.  Only the
    accounts collection has children that are documents, so a filtered read
    anywhere else matches nothing. *)
Definition dbGet (db : DB) (path : Path) (orderKey : string)
    (orderValue : jsval) : dbval :=
  if negb (bool_decide (orderKey = EmptyString)) && truthy orderValue then
    match path with
    | Users => snapshot (matching orderKey orderValue (users db))
    | _ => DNull
    end
  else
    match path with
    | RegAccessCode => from_option DVal DNull (regAccessCode db)
    | Users => snapshot (ordered (users db))
    | User k => from_option DDoc DNull (users db !! k)
    end.

(** [dbSet(mode, path, data = null)]: [set] replaces the node, [update]
    merges the given fields into it, [remove] deletes it.  Storing [null]
    deletes.  The program writes a value at the code path and a document at
    an account path; a write of any other shape leaves the store as it is. *)
Definition dbSet (db : DB) (mode : DBMode) (path : Path) (data : dbval) : DB :=
  match mode, path, data with
  | WRITE, RegAccessCode, DVal JNull | WRITE, RegAccessCode, DNull
  | REMOVE, RegAccessCode, _ =>
      mkDB None (users db)
  | WRITE, RegAccessCode, DVal v =>
      mkDB (Some v) (users db)
  | WRITE, User k, DDoc d =>
      mkDB (regAccessCode db) (<[k := d]> (users db))
  | UPDATE, User k, DDoc d =>
      mkDB (regAccessCode db) (<[k := d ∪ default ∅ (users db !! k)]> (users db))
  | WRITE, User k, DNull | REMOVE, User k, _ =>
      mkDB (regAccessCode db) (delete k (users db))
  | WRITE, Users, DNull | REMOVE, Users, _ =>
      mkDB (regAccessCode db) ∅
  | WRITE, Users, DDocs ds =>
      mkDB (regAccessCode db) (list_to_map ds)
  | UPDATE, Users, DDocs ds =>
      mkDB (regAccessCode db) (list_to_map ds ∪ users db)
  | _, _, _ => db
  end.

End Store.

(** ** Players

    [src/master.ts] uses the [Player] class through its fields [id], [sock],
    [dbRef], [status] and its methods [send], [switchState], [postAuth] and
    [fireDisconnection].  A player is an object: the registries hold
    references to it, and two references may name the same object. *)

Module World.
Import JS Store.

Abbreviation ref := nat.
Abbreviation Sock := nat.

Record Player := mkPlayer {
  id : Z;
  sock : option Sock;
  dbRef : jstring;
  name : jsval;
  status : Z
}.

(** The [data] argument of an outbound message, in the shapes the
    orchestrator builds. *)
Inductive Data :=
  | NoData
  | Text (s : string)
  | StatusOf (status : Z) (id : jstring).

(** The calls the orchestrator makes on its collaborators, in order. *)
Inductive Event :=
  | Send (to : ref) (type : string) (data : Data) (isTerminal : bool)
  | PostAuth (p : ref) (name : jsval) (dbRef : jstring) (queue : jsval)
      (isRespawn : bool)
  | SwitchState (p : ref) (newSock : option Sock)
  | FireDisconnection (p : ref) (explicit : bool)
  | AddFinder (p : ref) (gameId plrCount : jsval)
  | RemoveFinder (p : ref)
  | DbWrite (mode : DBMode) (path : Path) (data : dbval).

(** The static fields of [Master] ([db], [stalePlayers], [players], [pIds];
    [games] is never read or written by the orchestrator), the player
    objects, and the record of calls made so far.  [players] keeps the
    insertion order in which a JavaScript [Set] is iterated. *)
Record State := mkState {
  db : DB;
  stalePlayers : gmap jstring ref;
  players : list ref;
  pIds : Z;
  heap : gmap ref Player;
  trace : list Event
}.

Definition set_db (f : DB → DB) (st : State) : State :=
  mkState (f (db st)) (stalePlayers st) (players st) (pIds st) (heap st)
    (trace st).
Definition set_stalePlayers (f : gmap jstring ref → gmap jstring ref)
    (st : State) : State :=
  mkState (db st) (f (stalePlayers st)) (players st) (pIds st) (heap st)
    (trace st).
Definition set_players (f : list ref → list ref) (st : State) : State :=
  mkState (db st) (stalePlayers st) (f (players st)) (pIds st) (heap st)
    (trace st).
Definition set_pIds (f : Z → Z) (st : State) : State :=
  mkState (db st) (stalePlayers st) (players st) (f (pIds st)) (heap st)
    (trace st).
Definition set_heap (f : gmap ref Player → gmap ref Player) (st : State)
    : State :=
  mkState (db st) (stalePlayers st) (players st) (pIds st) (f (heap st))
    (trace st).
Definition emit (e : Event) (st : State) : State :=
  mkState (db st) (stalePlayers st) (players st) (pIds st) (heap st)
    (trace st ++ [e]).

Definition set_id (n : Z) (p : Player) : Player :=
  mkPlayer n (sock p) (dbRef p) (name p) (status p).
Definition set_sock (s : option Sock) (p : Player) : Player :=
  mkPlayer (id p) s (dbRef p) (name p) (status p).
Definition set_identity (nm : jsval) (key : jstring) (p : Player) : Player :=
  mkPlayer (id p) (sock p) key nm (status p).
Definition set_dbRef (key : jstring) (p : Player) : Player :=
  mkPlayer (id p) (sock p) key (name p) (status p).

(** [Set.prototype.add] and [Set.prototype.delete]. *)
Definition set_add (r : ref) (l : list ref) : list ref :=
  if bool_decide (r ∈ l) then l else l ++ [r].
Definition set_delete (r : ref) (l : list ref) : list ref :=
  filter (λ x, x ≠ r) l.

(** Field reads [p.id], [p.sock], [p.dbRef], [p.status]. *)
Definition id_of (st : State) (p : ref) : Z :=
  from_option id (-1) (heap st !! p).
Definition sock_of (st : State) (p : ref) : option Sock :=
  heap st !! p ≫= sock.
Definition dbRef_of (st : State) (p : ref) : jstring :=
  from_option dbRef [] (heap st !! p).
Definition status_of (st : State) (p : ref) : Z :=
  from_option status 0 (heap st !! p).

(** The player is the value of some entry of the stale registry. *)
Definition is_stale (st : State) (p : ref) : Prop :=
  ∃ k, stalePlayers st !! k = Some p.

(** Modelled from the spec: the body of [Player.send(type, data,
    isTerminal?)], "best-effort delivery of a typed message to the bound
    connection; failures are swallowed at this layer".  The orchestrator
    hands the message to the player and the call is recorded; an omitted
    [isTerminal] is [undefined], recorded as [false]. *)
Definition send (p : ref) (type : string) (data : Data) (isTerminal : bool)
    (st : State) : State :=
  emit (Send p type data isTerminal) st.

(** Modelled from the spec: the body of [Player.switchState] (the [Player]
    class is not part of [src/]).  "If called with a connection, the Player's
    channel is swapped to the supplied connection and the Player is expected
    to re-enter active broadcast/status flows.  If called with no argument,
    the Player releases its connection and its ephemeral id is invalidated."
    Membership of the active set is "has a live connection and has been
    registered by the orchestrator". *)
Definition switchState (p : ref) (newSock : option Sock) (st : State)
    : State :=
  let st := emit (SwitchState p newSock) st in
  match newSock with
  | Some s =>
      set_players (set_add p) (set_heap (alter (set_sock (Some s)) p) st)
  | None =>
      set_players (set_delete p)
        (set_heap (alter (λ o, set_id (-1) (set_sock None o)) p) st)
  end.

(** Modelled from the spec: the body of [Player.postAuth].  "Finalizes
    authentication: binds persistentRef, notifies the client of success, and
    if a pending matchmaking request was supplied with the login payload,
    forwards it into the Lobby."  The notification and the forwarding are
    the player's own calls; the orchestrator's call is what is recorded. *)
Definition postAuth (p : ref) (nm : jsval) (key : jstring) (queue : jsval)
    (isRespawn : bool) (st : State) : State :=
  set_heap (alter (set_identity nm key) p)
    (emit (PostAuth p nm key queue isRespawn) st).

(** Modelled from the spec: the body of [Player.fireDisconnection].
    "Invoked on transport close or explicit logout.  If the player was
    authenticated, the orchestrator moves it into the stale registry
    (explicit=false) or tears it down entirely (explicit=true)"; otherwise it
    is discarded.  Stale entries are "created only on disconnection of an
    authenticated player and removed only by respawn or by explicit
    logout-driven teardown", and a terminated player has its "identity
    released".  A player is authenticated when its [persistentRef] is not
    empty. *)
Definition fireDisconnection (p : ref) (explicit : bool) (st : State)
    : State :=
  let key := dbRef_of st p in
  let st := emit (FireDisconnection p explicit) st in
  let st := set_players (set_delete p)
              (set_heap (alter (set_sock None) p) st) in
  if bool_decide (key = []) then st
  else if explicit
  then set_heap (alter (set_dbRef []) p) (set_stalePlayers (delete key) st)
  else set_stalePlayers (<[key := p]>) st.

(** Modelled from the spec: the constructor [new Player(pSock, id)] as used
    by the connection handler of [Master.start]: "Player created on raw
    connection accept", unauthenticated, and a member of the active set
    "independent of authentication state". *)
Definition newPlayer (pSock : Sock) (n : Z) (st : State) : ref * State :=
  let r := fresh (dom (heap st)) in
  (r, set_players (set_add r)
        (set_heap (<[r := mkPlayer n (Some pSock) [] JUndef 0]>) st)).

End World.

(** ** The orchestrator *)

Module Master.
Import JS Store World.

(** The helpers of [./utility] the orchestrator calls; their bodies are not
    part of [src/master.ts].  [hash data algo] is [Utility.hash(data, algo)],
    with [None] for the default algorithm. *)
Class Utility := {
  hash : jsval → option string → jstring;
  isValidPassword : jstring → bool;
  isValidEmail : jstring → bool
}.

(** What a handler reads from its surroundings while it runs: the clock
    ([Date.now()]), one draw of [Math.random()], and the lobby's answer to
    [Lobby.addFinder]. *)
Record Env := mkEnv {
  now : Z;
  random : Q;
  finderAdded : bool
}.

(** An inbound message [{type, data}].  [data] is [None] when the message
    carries [null] or no data at all, in which case reading a property of it
    throws. *)
Record Msg := mkMsg {
  type : jsval;
  data : option (gmap string jsval)
}.

(** The optional third argument of [broadcast]. *)
Inductive CheckArg :=
  | Falsy
  | Func (f : ref → jsval)
  | Plr (p : ref).

(** [const proceed = !check || (isFunc ? check(plr) : check !== plr)] *)
Definition proceed (check : CheckArg) (plr : ref) : bool :=
  match check with
  | Falsy => true
  | Func f => truthy (f plr)
  | Plr p => bool_decide (p ≠ plr)
  end.

(** [Master.broadcast(type, data, check?)] *)
Definition broadcast (type : string) (data : Data) (check : CheckArg)
    (st : State) : State :=
  foldl (λ st plr, if proceed check plr then send plr type data false st
                   else st)
    st (players st).

(** [Master.pushStatusUpdate(exPlr)] *)
Definition pushStatusUpdate (exPlr : ref) (st : State) : State :=
  broadcast "Status-Update"
    (StatusOf (status_of st exPlr) (dbRef_of st exPlr)) (Plr exPlr) st.

(** The connection handler installed by [Master.start]:
    [new Player(pSock, this.pIds++)]. *)
Definition onConnection (pSock : Sock) (st : State) : ref * State :=
  newPlayer pSock (pIds st) (set_pIds (λ n, n + 1) st).

(** [Master.tryRespawn(p, name, eref, queue?)] *)
Definition tryRespawn (p : ref) (nm : jsval) (eref : jstring) (queue : jsval)
    (st : State) : State * bool :=
  match stalePlayers st !! eref with
  | None => (st, false)
  | Some respPlr =>
      let st := set_stalePlayers (delete eref) st in
      let st := switchState respPlr (sock_of st p) st in
      let st := postAuth respPlr nm eref queue true st in
      let st := set_heap (alter (set_id (id_of st p)) respPlr) st in
      let st := switchState p None st in
      let st := set_heap (alter (set_id (-1)) p) st in
      (st, true)
  end.

(** [if (!this.tryRespawn(plr, name, ref, queue)) plr.postAuth(name, ref, queue)] *)
Definition respawnOrAuth (plr : ref) (nm : jsval) (key : jstring)
    (queue : jsval) (st : State) : State :=
  let '(st', respawned) := tryRespawn plr nm key queue st in
  if respawned then st' else postAuth plr nm key queue false st'.

(** The static initialisers of [Master]: empty registries, [pIds = 0], and
    whatever the remote store holds. *)
Definition initial (d : DB) : State := mkState d ∅ [] 0 ∅ [].

(** [Master.dbSet] on the orchestrator's store; the write is recorded. *)
Definition doDbSet (mode : DBMode) (path : Path) (d : dbval) (st : State)
    : State :=
  emit (DbWrite mode path d) (set_db (λ b, dbSet b mode path d) st).

(** [Master.randomizeAccess()]:
    [parseInt(`${Math.random() * (999999 - 100000) + 100000}`)].  The
    difference of the two integers is exact; the product and the sum are
    each rounded to a double.  The text of a double between two integers
    starts with the digits of the lower one, so [parseInt] yields the
    integer part of the sum. *)
Definition newAccessCode (rnd : Q) : Z :=
  Qfloor (num_add (num_mul rnd (999999 - 100000)) 100000).

Definition randomizeAccess (env : Env) (st : State) : State :=
  doDbSet WRITE RegAccessCode (DVal (JNum (newAccessCode (random env)))) st.

Section handlers.
Context `{Runtime} `{Utility}.

(** The value the registration gate compares, [await dbGet('regAccessCode')
    == data.access]. *)
Definition accessMatches (st : State) (access : jsval) : bool :=
  match dbGet (db st) RegAccessCode "" JUndef with
  | DNull => loose_eq JNull access
  | DVal v => loose_eq v access
  | _ => false
  end.

(** [case "Login"], session-token path: taken when
    [data.sess && typeof data.sess == 'string']. *)
Definition loginSession (env : Env) (plr : ref) (sess queue : jsval)
    (st : State) : State :=
  let expired := send plr "Warn" (Text "Session expired! login again") true in
  match dbGet (db st) Users "session" sess with
  | DDocs ((dref, userDObj) :: _) =>
      if num_gt (parseInt_opt (split1 124 (field userDObj "session")))
           (now env)
      then
        if negb (truthy (field userDObj "isBlocked"))
        then respawnOrAuth plr (field userDObj "name") dref queue st
        else send plr "Warn" (Text "Your are blocked by admin") true st
      else expired st
  | _ => expired st
  end.

(** [case "Login"], password path. *)
Definition loginKey (email : jsval) : jstring :=
  match email with
  | JStr e => hash (JStr (toLowerCase e)) (Some "md5"%string)
  | _ => jstr "null"
  end.

Definition loginPassword (plr : ref) (email pass queue : jsval) (st : State)
    : State :=
  let emDbRefLog := loginKey email in
  match dbGet (db st) (User emDbRefLog) "" JUndef with
  | DDoc userDet =>
      if bool_decide (field userDet "pass" = JStr (hash pass None))
      then
        if negb (truthy (field userDet "isBlocked"))
        then respawnOrAuth plr (field userDet "name") emDbRefLog queue st
        else send plr "Warn" (Text "Your are blocked by admin") true st
      else send plr "Error" (Text "Oh! It's wrong login password.") true st
  | _ => send plr "Error" (Text "Please register first to continue") true st
  end.

Definition handleLogin (env : Env) (plr : ref) (d : gmap string jsval)
    (st : State) : State :=
  if truthy (field d "sess") && is_string (field d "sess")
  then loginSession env plr (field d "sess") (field d "queue") st
  else loginPassword plr (field d "email") (field d "pass")
         (field d "queue") st.

(** [case "Register"], once the access code has been accepted. *)
Definition registerChecked (env : Env) (plr : ref) (d : gmap string jsval)
    (st : State) : State :=
  let err text := send plr "Error" (Text text) true st in
  match field d "name", field d "email", field d "pass" with
  | JStr nm, JStr email, JStr pass =>
      if negb (truthy (JStr nm)) || negb (truthy (JStr email))
         || negb (truthy (JStr pass))
      then err "Invalid or Malformed request."
      else if (length nm <? 4)%nat
      then err "Name is too short, it should be at least 4 characters long."
      else if (20 <? length nm)%nat
      then err "Name is too long, it must not exceed 20 characters."
      else if negb (isValidPassword pass)
      then err "Password should be alphanumeric, with at least 8 characters, including special characters."
      else if negb (isValidEmail email)
      then err "This email doesn't looks like a valid one, try again."
      else
        let nm := trim nm in
        let email := toLowerCase (trim email) in
        let emDbRefSig := hash (JStr email) (Some "md5"%string) in
        match dbGet (db st) (User emDbRefSig) "" JUndef with
        | DNull =>
            let st := doDbSet WRITE (User emDbRefSig)
                        (DDoc (<["pass"%string := JStr (hash (JStr pass) None)]>
                               (<["email"%string := JStr email]>
                               (<["name"%string := JStr nm]>
                               (<["isBlocked"%string := JBool false]> ∅)))))
                        st in
            let st := randomizeAccess env st in
            postAuth plr (JStr nm) emDbRefSig JUndef false st
        | _ => err "User already exists! Please login to continue."
        end
  | _, _, _ => err "Invalid or Malformed request."
  end.

Definition handleRegister (env : Env) (plr : ref) (d : gmap string jsval)
    (st : State) : State :=
  if accessMatches st (field d "access")
  then registerChecked env plr d st
  else send plr "Error" (Text "Access code is invalid!") true st.

(** [case "Logout"] *)
Definition handleLogout (plr : ref) (st : State) : State :=
  let st := doDbSet UPDATE (User (dbRef_of st plr))
              (DDoc {["session"%string := JStr (jstr "null|0")]}) st in
  fireDisconnection plr true st.

(** [case "Search"] *)
Definition handleSearch (env : Env) (plr : ref) (d : gmap string jsval)
    (st : State) : State :=
  let st := emit (AddFinder plr (field d "gameId") (field d "plrCount")) st in
  if finderAdded env then send plr "Goto-Lobby" NoData false st
  else send plr "Lobby-Cancel" NoData false st.

(** [case "Cancel-Search"] *)
Definition handleCancelSearch (plr : ref) (st : State) : State :=
  emit (RemoveFinder plr) (send plr "Search-Cancelled" NoData false st).

(** [default] *)
Definition handleDefault (plr : ref) (st : State) : State :=
  send plr "Error" (Text "Invalid request!") false st.

(** [msg.type] is one of the five case labels of the [switch]. *)
Definition recognized (t : jsval) : Prop :=
  t = JStr (jstr "Login") ∨ t = JStr (jstr "Register")
  ∨ t = JStr (jstr "Logout") ∨ t = JStr (jstr "Search")
  ∨ t = JStr (jstr "Cancel-Search").

(** [Master.handleMSG(plr, msg)].  The result is [None] when the handler
    throws on reading a property of an absent [data]; that happens before
    any effect. *)
Definition handleMSG (env : Env) (plr : ref) (msg : Msg) (st : State)
    : option State :=
  if bool_decide (type msg = JStr (jstr "Login")) then
    d ← data msg; Some (handleLogin env plr d st)
  else if bool_decide (type msg = JStr (jstr "Register")) then
    d ← data msg; Some (handleRegister env plr d st)
  else if bool_decide (type msg = JStr (jstr "Logout")) then
    Some (handleLogout plr st)
  else if bool_decide (type msg = JStr (jstr "Search")) then
    d ← data msg; Some (handleSearch env plr d st)
  else if bool_decide (type msg = JStr (jstr "Cancel-Search")) then
    Some (handleCancelSearch plr st)
  else Some (handleDefault plr st).

End handlers.

End Master.

(** ** A concrete runtime and utility, used to run the handlers *)

Module Sample.
Import JS Store World Master.

(** ASCII lower-casing. *)
Definition lower (c : N) : N :=
  if ((65 <=? c) && (c <=? 90))%N then (c + 32)%N else c.

(** Decimal numerals, and the empty text, which converts to 0; every other
    text is taken not to denote an integer. *)
Definition decimal (s : jstring) : option Z :=
  if forallb (λ c, (48 <=? c) && (c <=? 57))%N s
  then Some (default 0 (digits 10 None s))
  else None.

#[export] Instance runtime : Runtime := {|
  toLowerCase := fmap lower;
  StringToNumber := decimal;
  ToPrimitive := λ _, JStr (jstr "[object Object]")
|}.

(** A stand-in digest: the algorithm's name, a colon, and the text. *)
Definition digest (v : jsval) (algo : option string) : jstring :=
  match v with
  | JStr s => jstr (default "sha"%string algo) ++ 58%N :: s
  | _ => jstr "?"
  end.

#[export] Instance utility : Utility := {|
  hash := digest;
  isValidPassword := λ s, (8 <=? length s)%nat;
  isValidEmail := λ s, bool_decide (64%N ∈ s)
|}.

Definition db0 : DB := mkDB (Some (JNum 123456)) ∅.

Definition env0 : Env := mkEnv 1000 (1 # 2) true.

End Sample.

(** ** What the specification speaks of

    The notions used to state the properties: the effect of a broadcast, of
    a lone reply, the invariant of the registries, the completed operations
    of the orchestrator and the states they reach. *)

Module Spec.
Import JS Store World Master.

(** The state after the message has been handed, in order, to each player
    of [rs] and nothing else has happened. *)
Definition sent_to (type : string) (data : Data) (rs : list ref)
    (st : State) : State :=
  mkState (db st) (stalePlayers st) (players st) (pIds st) (heap st)
    (trace st ++ ((λ p, Send p type data false) <$> rs)).

(** The handler did nothing but hand one message to a player: the store,
    both registries and every player object are as before, and the call
    [e] is the only one made (in particular no connection was switched or
    closed). *)
Definition only_replies (e : Event) (st st' : State) : Prop :=
  db st' = db st ∧ stalePlayers st' = stalePlayers st
  ∧ players st' = players st ∧ heap st' = heap st ∧ pIds st' = pIds st
  ∧ trace st' = trace st ++ [e].

(** What holds of the registries in every state the orchestrator reaches:
    the active set has no duplicates, every active player has a live
    connection, and a stale entry is filed under the persistent identity of
    a player that is not active. *)
Record Inv (st : State) : Prop := mkInv {
  inv_nodup : NoDup (players st);
  inv_live : ∀ p, p ∈ players st →
    (∃ o s, heap st !! p = Some o ∧ sock o = Some s);
  inv_stale : ∀ k r, stalePlayers st !! k = Some r →
    (r ∉ players st) ∧ (k ≠ []) ∧ (∃ o, heap st !! r = Some o ∧ dbRef o = k)
}.

(** The login of [plr] under the name [nm] and the directory key [key] has
    gone through, told by what is left behind rather than by the function
    that did it.  The store and the id counter are untouched and no stale
    entry remains under [key].  With no stale player under [key], the one
    call made is [plr.postAuth(nm, key, queue)] and [plr] itself now carries
    the name and the key.  With a stale player [r] under [key], the calls
    are [r.switchState(plr.sock)], [r.postAuth(nm, key, queue, true)] and
    [plr.switchState()]; every other player is as before; and, when [plr]
    was active in a state satisfying the registry invariant, [r] is active
    with the connection and the id of [plr], the name and the key, while
    [plr] is left with no connection, the id [-1], and out of the active
    set. *)
Definition authenticates (plr : ref) (nm : jsval) (key : jstring)
    (queue : jsval) (st st' : State) : Prop :=
  db st' = db st ∧ pIds st' = pIds st
  ∧ stalePlayers st' = delete key (stalePlayers st)
  ∧ match stalePlayers st !! key with
    | None =>
        players st' = players st
        ∧ trace st' = trace st ++ [PostAuth plr nm key queue false]
        ∧ heap st' !! plr
          = (λ o, mkPlayer (id o) (sock o) key nm (status o))
              <$> heap st !! plr
        ∧ (∀ q, q ≠ plr → heap st' !! q = heap st !! q)
    | Some r =>
        trace st' = trace st ++
          [SwitchState r (sock_of st plr);
           PostAuth r nm key queue true;
           SwitchState plr None]
        ∧ (∀ q, q ≠ r → q ≠ plr →
             heap st' !! q = heap st !! q
             ∧ (q ∈ players st' ↔ q ∈ players st))
        ∧ (Inv st → plr ∈ players st →
             r ≠ plr ∧ r ∈ players st' ∧ (plr ∉ players st')
             ∧ ∃ o op s,
                 heap st !! r = Some o ∧ heap st !! plr = Some op
                 ∧ sock op = Some s
                 ∧ heap st' !! r
                   = Some (mkPlayer (id op) (Some s) key nm (status o))
                 ∧ heap st' !! plr
                   = Some (mkPlayer (-1) None (dbRef op) (name op)
                             (status op)))
    end.

(** A document the store keeps as it is: it has a field, and no field is
    [null] or [undefined]. *)
Definition storable (d : doc) : Prop :=
  d ≠ ∅ ∧ ∀ f v, d !! f = Some v → v ≠ JNull ∧ v ≠ JUndef.


Section transitions.
Context `{Runtime} `{Utility}.

(** One completed operation: a connection is accepted, a message of an
    active player is handled, the connection of an active player drops, or
    an active player reports a new status. *)
Inductive step : State → State → Prop :=
  | step_connect st pSock :
      step st (onConnection pSock st).2
  | step_message st env plr msg st' :
      plr ∈ players st → handleMSG env plr msg st = Some st' → step st st'
  | step_close st plr :
      plr ∈ players st → step st (fireDisconnection plr false st)
  | step_status st plr :
      plr ∈ players st → step st (pushStatusUpdate plr st).

Inductive reachable : State → Prop :=
  | reach_initial d : reachable (initial d)
  | reach_step st st' : reachable st → step st st' → reachable st'.

(** The sentence of the specification: after every completed operation a
    player with a persistent identity is in exactly one of the two
    registries. *)
Definition exactly_one (st : State) (p : ref) : Prop :=
  (p ∈ players st ∧ ¬ is_stale st p) ∨ ((p ∉ players st) ∧ is_stale st p).

Definition always_exactly_one : Prop :=
  ∀ st, reachable st →
    ∀ p o, heap st !! p = Some o → dbRef o ≠ [] → exactly_one st p.

(** The document written for a new account. *)
Definition accountDoc (pw email nm : jstring) : doc :=
  <["pass"%string := JStr (hash (JStr pw) None)]>
    (<["email"%string := JStr email]>
    (<["name"%string := JStr nm]>
    (<["isBlocked"%string := JBool false]> ∅))).

(** The sentence of the specification about names: the length is measured
    after trimming, so a request that is not turned away carries a name
    with 4 to 20 characters left once it is trimmed. *)
Definition name_measured_after_trim : Prop :=
  ∀ env plr d st,
    accessMatches st (field d "access") = true →
    (∀ text, handleRegister env plr d st
             ≠ send plr "Error" (Text text) true st) →
    ∃ nm, field d "name" = JStr nm ∧ (4 ≤ length (trim nm) ≤ 20)%nat.

(** The directory key under which [Register] files an e-mail address. *)
Definition registerKey (em : jstring) : jstring :=
  hash (JStr (toLowerCase (trim em))) (Some "md5"%string).

(** The payload passes every check of [case "Register"]: the access code,
    the three fields, the two length guards, the two validators, and no
    account yet under the key. *)
Definition passes_register (st : State) (d : gmap string jsval)
    (nm em pw : jstring) : Prop :=
  accessMatches st (field d "access") = true
  ∧ field d "name" = JStr nm ∧ field d "email" = JStr em
  ∧ field d "pass" = JStr pw
  ∧ nm ≠ [] ∧ em ≠ [] ∧ pw ≠ []
  ∧ (4 ≤ length nm ≤ 20)%nat
  ∧ isValidPassword pw = true ∧ isValidEmail em = true
  ∧ users (db st) !! registerKey em = None.

(** The state a registration that passes every check leaves behind. *)
Definition registered (env : Env) (plr : ref) (nm em pw : jstring)
    (st : State) : State :=
  postAuth plr (JStr (trim nm)) (registerKey em) JUndef false
    (randomizeAccess env
       (doDbSet WRITE (User (registerKey em))
          (DDoc (accountDoc pw (toLowerCase (trim em)) (trim nm))) st)).

End transitions.

End Spec.

(** ** A run of the orchestrator

    One connection registers as Alice, drops, and a second connection
    arrives; the handlers are evaluated on these states. *)

Module Run.
Import JS Store World Master Sample Spec.

Definition payload (access name email pass : jsval) : gmap string jsval :=
  <["access"%string := access]>
    (<["name"%string := name]>
    (<["email"%string := email]>
    (<["pass"%string := pass]> ∅))).

Definition alice : gmap string jsval :=
  payload (JStr (jstr "123456")) (JStr (jstr "Alice"))
    (JStr (jstr "A@B.com")) (JStr (jstr "Secret#1")).

Definition alice_key : jstring := jstr "md5:a@b.com".

(** The document stored for Alice. *)
Definition alice_doc : doc :=
  accountDoc (jstr "Secret#1") (jstr "a@b.com") (jstr "Alice").

Definition s0 : State := initial db0.
Definition s1 : State := (onConnection 7 s0).2.
Definition s2 : State := handleRegister env0 0%nat alice s1.
Definition s3 : State := fireDisconnection 0%nat false s2.
Definition s4 : State := (onConnection 8 s3).2.

(** The state after Alice logs out instead of dropping. *)
Definition s_out : State := handleLogout 0%nat s2.

(** A second connection logs in as Alice while the first is still active;
    then the first connection drops, then the second. *)
Definition alice_login : gmap string jsval :=
  <["email"%string := JStr (jstr "A@B.com")]>
    (<["pass"%string := JStr (jstr "Secret#1")]> ∅).

Definition d1 : State := (onConnection 8 s2).2.
Definition d2 : State := handleLogin env0 1%nat alice_login d1.
Definition d3 : State := fireDisconnection 0%nat false d2.
Definition d4 : State := fireDisconnection 1%nat false d3.

(** A message of a type the handler does not know. *)
Definition ping : Msg := mkMsg (JStr (jstr "Ping")) None.

(** A login with a session token that ran out at time 500, handled at time
    1000; the payload also carries Alice's e-mail and password. *)
Definition stale_token : gmap string jsval :=
  <["sess"%string := JStr (jstr "tok|500")]>
    (<["email"%string := JStr (jstr "A@B.com")]>
    (<["pass"%string := JStr (jstr "Secret#1")]> ∅)).

(** A login with Alice's e-mail and a wrong password. *)
Definition wrong_pass : gmap string jsval :=
  <["email"%string := JStr (jstr "A@B.com")]>
    (<["pass"%string := JStr (jstr "guess")]> ∅).

(** A store without an access code, and a payload without [access]. *)
Definition open_gate : State := (onConnection 7 (initial (mkDB None ∅))).2.

(** A name of two letters followed by four spaces. *)
Definition padded : gmap string jsval :=
  payload (JStr (jstr "123456")) (JStr (jstr "ab    "))
    (JStr (jstr "A@B.com")) (JStr (jstr "Secret#1")).

(** A name of four spaces. *)
Definition blank : gmap string jsval :=
  payload (JStr (jstr "123456")) (JStr (jstr "    "))
    (JStr (jstr "A@B.com")) (JStr (jstr "Secret#1")).

(** A draw of [Math.random()] that reproduces the code 123456 (the double
    0.026062806736451928, for which the sum is 123456.5), and a second
    registration presenting that code. *)
Definition same_code : Env :=
  mkEnv 1000 (3756046294608453 # 144115188075855872) true.

(** A draw for which the rounded sum reaches the next integer: the exact
    sum lies below 102267, the sum in doubles is 102267. *)
Definition rounded_up : Q := 5808168788951367 # 2305843009213693952.

Definition alice_num : gmap string jsval :=
  payload (JNum 123456) (JStr (jstr "Alice"))
    (JStr (jstr "A@B.com")) (JStr (jstr "Secret#1")).

Definition bob : gmap string jsval :=
  payload (JNum 123456) (JStr (jstr "Bobby"))
    (JStr (jstr "bob@c.org")) (JStr (jstr "Secret#2")).

Definition r1 : State := handleRegister same_code 0%nat alice_num s1.
Definition r2 : State := (onConnection 8 r1).2.
Definition r3 : State := handleRegister env0 1%nat bob r2.

(** A second registration for Alice's address, in other letter case and
    with surrounding blanks, presenting the rotated code. *)
Definition alice_again : gmap string jsval :=
  payload (JNum 549999) (JStr (jstr "Alice2"))
    (JStr (jstr " a@b.COM ")) (JStr (jstr "Secret#3")).

(** A store in which Alice's account carries a session that runs until
    time 2000, and a login presenting that session at time 1000. *)
Definition alice_session : doc :=
  <["session"%string := JStr (jstr "tok|2000")]> alice_doc.

Definition db_session : DB :=
  mkDB (Some (JNum 123456)) {[alice_key := alice_session]}.

Definition token_login : gmap string jsval :=
  {["sess"%string := JStr (jstr "tok|2000")]}.

Definition t1 : State := (onConnection 7 (initial db_session)).2.
Definition t2 : State := handleLogin env0 0%nat alice_login t1.
Definition t3 : State := (onConnection 8 (handleLogout 0%nat t2)).2.

(** A store in which two accounts carry the same session: a blocked one
    filed under [b] and one that is not blocked filed under [a]. *)
Definition blocked_session : doc :=
  <["isBlocked"%string := JBool true]> alice_session.

Definition db_twins : DB :=
  mkDB None (<[jstr "b" := blocked_session]> {[jstr "a" := alice_session]}).

Definition w1 : State := (onConnection 7 (initial db_twins)).2.

(** A login whose token has no bar. *)
Definition bare_token : gmap string jsval :=
  {["sess"%string := JStr (jstr "token")]}.

End Run.

(** ** Properties *)

Module Props.
Import JS Store World Master Spec.

Ltac crush := intuition (subst; eauto; congruence).

(** *** Broadcast *)

Lemma state_eta (st : State) :
  mkState (db st) (stalePlayers st) (players st) (pIds st) (heap st)
    (trace st) = st.
Proof. by destruct st. Qed.

Lemma broadcast_loop type data check (l : list ref) : ∀ st,
  foldl (λ st plr, if proceed check plr then send plr type data false st
                   else st) st l
  = sent_to type data (filter (λ p, proceed check p = true) l) st.
Proof.
  induction l as [|p l IH]; intros st; simpl.
  - unfold sent_to; simpl. rewrite app_nil_r. by rewrite state_eta.
  - rewrite IH. rewrite filter_cons.
    destruct (proceed check p) eqn:Hp.
    + rewrite decide_True by done. unfold sent_to, send, emit; simpl.
      by rewrite <- app_assoc.
    + by rewrite decide_False by done.
Qed.

Lemma broadcast_sent_to type data check st :
  broadcast type data check st
  = sent_to type data (filter (λ p, proceed check p = true) (players st)) st.
Proof. apply broadcast_loop. Qed.

Lemma filter_ext_list {A} (P Q : A → Prop) `{∀ x, Decision (P x)}
    `{∀ x, Decision (Q x)} (l : list A) :
  (∀ x, P x ↔ Q x) → filter P l = filter Q l.
Proof.
  intros HPQ. induction l as [|x l IH]; [done|].
  rewrite !filter_cons, IH.
  destruct (decide (P x)) as [HP|HP], (decide (Q x)) as [HQ|HQ];
    [done| | |done]; exfalso; apply HPQ in HP || apply HPQ in HQ; done.
Qed.

(** C3.  [broadcast(type, data, check)] hands the message to every active
    player when [check] is absent or falsy; to exactly the active players
    for which [check(player)] is truthy (for a predicate: returns [true])
    when [check] is a function; to every active player other than [check]
    when [check] is a player; and to nobody when that player is the only
    active one.  Nothing else in the state changes. *)
Theorem broadcast_recipients type data st :
  broadcast type data Falsy st = sent_to type data (players st) st
  ∧ (∀ f, broadcast type data (Func f) st
          = sent_to type data
              (filter (λ p, truthy (f p) = true) (players st)) st)
  ∧ (∀ pred : ref → bool,
        broadcast type data (Func (λ p, JBool (pred p))) st
        = sent_to type data (filter (λ p, pred p = true) (players st)) st)
  ∧ (∀ q, broadcast type data (Plr q) st
          = sent_to type data (filter (λ p, p ≠ q) (players st)) st)
  ∧ (∀ q, broadcast type data (Plr q) (set_players (λ _, [q]) st)
          = set_players (λ _, [q]) st).
Proof.
  repeat split; intros; rewrite broadcast_sent_to.
  - f_equal. induction (players st) as [|p l IH]; [done|].
    by rewrite filter_cons, IH.
  - done.
  - done.
  - f_equal. apply filter_ext_list. intros p. simpl.
    rewrite bool_decide_eq_true. crush.
  - unfold sent_to; simpl. rewrite filter_cons, filter_nil. simpl.
    rewrite bool_decide_eq_false_2 by crush.
    rewrite decide_False by done. simpl. by rewrite app_nil_r.
Qed.

(** *** The registries *)

Lemma elem_of_set_add (r x : ref) l : x ∈ set_add r l ↔ x = r ∨ x ∈ l.
Proof.
  unfold set_add. case_bool_decide.
  - crush.
  - rewrite elem_of_app, list_elem_of_singleton. crush.
Qed.

Lemma elem_of_set_delete (r x : ref) l : x ∈ set_delete r l ↔ x ≠ r ∧ x ∈ l.
Proof. unfold set_delete. by rewrite list_elem_of_filter. Qed.

Lemma NoDup_set_add (r : ref) l : NoDup l → NoDup (set_add r l).
Proof.
  intros Hl. unfold set_add. case_bool_decide; [done|].
  apply NoDup_app. split_and!; [done| |apply NoDup_singleton].
  intros x Hx ->%list_elem_of_singleton. done.
Qed.

Lemma NoDup_set_delete (r : ref) l : NoDup l → NoDup (set_delete r l).
Proof. apply NoDup_filter. Qed.

Lemma Inv_not_both st p : Inv st → p ∈ players st → ¬ is_stale st p.
Proof. intros HI Hp [k Hk]. by destruct (inv_stale _ HI _ _ Hk). Qed.

Lemma Inv_frame st st' :
  players st' = players st → heap st' = heap st →
  stalePlayers st' = stalePlayers st → Inv st → Inv st'.
Proof.
  intros Hp Hh Hs [I1 I2 I3]. split; rewrite ?Hp, ?Hh, ?Hs; done.
Qed.

Lemma Inv_emit e st : Inv st → Inv (emit e st).
Proof. by apply Inv_frame. Qed.

Lemma Inv_send p ty d t st : Inv st → Inv (send p ty d t st).
Proof. apply Inv_emit. Qed.

Lemma Inv_doDbSet mode path d st : Inv st → Inv (doDbSet mode path d st).
Proof. by apply Inv_frame. Qed.

Lemma Inv_set_pIds f st : Inv st → Inv (set_pIds f st).
Proof. by apply Inv_frame. Qed.

Lemma Inv_broadcast ty d check st : Inv st → Inv (broadcast ty d check st).
Proof. rewrite broadcast_sent_to. by apply Inv_frame. Qed.

(** Changing a field other than [sock] and [dbRef] of any player. *)
Lemma Inv_set_id n p st : Inv st → Inv (set_heap (alter (set_id n) p) st).
Proof.
  intros [I1 I2 I3]. split; simpl; [done| |].
  - intros q Hq. destruct (I2 q Hq) as (o & s & Ho & Hs).
    destruct (decide (p = q)) as [->|Hne].
    + exists (set_id n o), s. by rewrite lookup_alter_eq, Ho.
    + exists o, s. by rewrite lookup_alter_ne.
  - intros k r Hk. destruct (I3 k r Hk) as (Hr & Hne & o & Ho & Hd).
    split_and!; [done..|].
    destruct (decide (p = r)) as [->|Hpr].
    + exists (set_id n o). by rewrite lookup_alter_eq, Ho.
    + exists o. by rewrite lookup_alter_ne.
Qed.

Lemma Inv_postAuth p nm key queue b st :
  Inv st → ¬ is_stale st p → Inv (postAuth p nm key queue b st).
Proof.
  intros [I1 I2 I3] Hp. split; simpl; [done| |].
  - intros q Hq. destruct (I2 q Hq) as (o & s & Ho & Hs).
    destruct (decide (p = q)) as [->|Hne].
    + exists (set_identity nm key o), s. by rewrite lookup_alter_eq, Ho.
    + exists o, s. by rewrite lookup_alter_ne.
  - intros k r Hk. destruct (I3 k r Hk) as (Hr & Hne & o & Ho & Hd).
    split_and!; [done..|].
    assert (p ≠ r) by (intros ->; apply Hp; by exists k).
    exists o. by rewrite lookup_alter_ne.
Qed.

Lemma Inv_switchState_None p st : Inv st → Inv (switchState p None st).
Proof.
  intros [I1 I2 I3]. split; simpl.
  - by apply NoDup_set_delete.
  - intros q [Hne Hq]%elem_of_set_delete.
    destruct (I2 q Hq) as (o & s & Ho & Hs).
    exists o, s. by rewrite lookup_alter_ne.
  - intros k r Hk. destruct (I3 k r Hk) as (Hr & Hne & o & Ho & Hd).
    split_and!; [|done|].
    + rewrite elem_of_set_delete. crush.
    + destruct (decide (p = r)) as [->|Hpr].
      * eexists. rewrite lookup_alter_eq, Ho. done.
      * exists o. by rewrite lookup_alter_ne.
Qed.

Lemma Inv_switchState_Some r s st :
  Inv st → ¬ is_stale st r → is_Some (heap st !! r) →
  Inv (switchState r (Some s) st).
Proof.
  intros [I1 I2 I3] Hr [o Ho]. split; simpl.
  - by apply NoDup_set_add.
  - intros q [->|Hq]%elem_of_set_add.
    + exists (set_sock (Some s) o), s. by rewrite lookup_alter_eq, Ho.
    + destruct (I2 q Hq) as (o' & s' & Ho' & Hs').
      destruct (decide (r = q)) as [->|Hne].
      * exists (set_sock (Some s) o), s. by rewrite lookup_alter_eq, Ho.
      * exists o', s'. by rewrite lookup_alter_ne.
  - intros k r' Hk. destruct (I3 k r' Hk) as (Hr' & Hne & o' & Ho' & Hd).
    assert (r ≠ r') by (intros ->; apply Hr; by exists k).
    split_and!; [|done|].
    + rewrite elem_of_set_add. crush.
    + exists o'. by rewrite lookup_alter_ne.
Qed.

Lemma Inv_delete_stale k st : Inv st → Inv (set_stalePlayers (delete k) st).
Proof.
  intros [I1 I2 I3]. split; simpl; [done..|].
  intros k' r [_ Hk]%lookup_delete_Some. by apply I3.
Qed.

Lemma Inv_release p st :
  Inv st → ¬ is_stale st p → p ∉ players st →
  Inv (set_heap (alter (set_dbRef []) p) st).
Proof.
  intros [I1 I2 I3] Hs Hp. split; simpl; [done| |].
  - intros q Hq. destruct (I2 q Hq) as (o & s & Ho & Hso).
    assert (p ≠ q) by congruence.
    exists o, s. by rewrite lookup_alter_ne.
  - intros k r Hk. destruct (I3 k r Hk) as (Hr & Hne & o & Ho & Hd).
    split_and!; [done..|].
    assert (p ≠ r) by (intros ->; apply Hs; by exists k).
    exists o. by rewrite lookup_alter_ne.
Qed.

Lemma Inv_fireDisconnection p explicit st :
  Inv st → Inv (fireDisconnection p explicit st).
Proof.
  intros HI. pose proof HI as [I1 I2 I3]. unfold fireDisconnection.
  set (st1 := set_players _ _).
  assert (Inv st1) as HI1.
  { split; simpl.
    - by apply NoDup_set_delete.
    - intros q [Hne Hq]%elem_of_set_delete.
      destruct (I2 q Hq) as (o & s & Ho & Hs).
      exists o, s. by rewrite lookup_alter_ne.
    - intros k r Hk. destruct (I3 k r Hk) as (Hr & Hne & o & Ho & Hd).
      split_and!; [|done|].
      + rewrite elem_of_set_delete. crush.
      + destruct (decide (p = r)) as [->|Hpr].
        * eexists. rewrite lookup_alter_eq, Ho. done.
        * exists o. by rewrite lookup_alter_ne. }
  case_bool_decide as Hkey; [done|].
  destruct explicit.
  { apply Inv_release.
    - by apply Inv_delete_stale.
    - intros [k Hk]. simpl in Hk. apply lookup_delete_Some in Hk as [Hne Hk].
      destruct (I3 k p Hk) as (_ & _ & o & Ho & Hd).
      unfold dbRef_of in Hne. rewrite Ho in Hne. simpl in Hne. congruence.
    - simpl. rewrite elem_of_set_delete. tauto. }
  destruct HI1 as [J1 J2 J3]. split; simpl; [done..|].
  intros k r [[<- <-]|[Hne Hk]]%lookup_insert_Some.
  - split_and!; [|done|].
    + rewrite elem_of_set_delete. crush.
    + unfold dbRef_of in *. destruct (heap st !! p) as [o|] eqn:Ho; [|done].
      eexists. rewrite lookup_alter_eq, Ho. done.
  - by apply J3.
Qed.

Lemma Inv_newPlayer pSock n st : Inv st → Inv (newPlayer pSock n st).2.
Proof.
  intros [I1 I2 I3]. unfold newPlayer. simpl.
  set (r := fresh (dom (heap st))).
  assert (heap st !! r = None) as Hr.
  { apply not_elem_of_dom. apply is_fresh. }
  split; simpl.
  - by apply NoDup_set_add.
  - intros q [->|Hq]%elem_of_set_add.
    + eexists _, pSock. by rewrite lookup_insert_eq.
    + destruct (I2 q Hq) as (o & s & Ho & Hs).
      exists o, s. rewrite lookup_insert_ne; [done|]. congruence.
  - intros k r' Hk. destruct (I3 k r' Hk) as (Hr' & Hne & o & Ho & Hd).
    assert (r ≠ r') by congruence.
    split_and!; [|done|].
    + rewrite elem_of_set_add. crush.
    + exists o. by rewrite lookup_insert_ne.
Qed.

(** *** Respawn *)

Lemma tryRespawn_absent p nm eref queue st :
  stalePlayers st !! eref = None →
  tryRespawn p nm eref queue st = (st, false).
Proof. intros Hk. unfold tryRespawn. by rewrite Hk. Qed.

Lemma sock_of_live st p : Inv st → p ∈ players st → is_Some (sock_of st p).
Proof.
  intros HI Hp. destruct (inv_live _ HI _ Hp) as (o & s & Ho & Hs).
  exists s. unfold sock_of. by rewrite Ho.
Qed.

Lemma Inv_tryRespawn p nm eref queue st :
  Inv st → p ∈ players st → Inv (tryRespawn p nm eref queue st).1.
Proof.
  intros HI Hp. unfold tryRespawn.
  destruct (stalePlayers st !! eref) as [r|] eqn:Hk; [|done].
  destruct (inv_stale _ HI _ _ Hk) as (Hr & Hne & o & Ho & Hd).
  destruct (sock_of_live _ _ HI Hp) as [s Hs]. simpl.
  set (st1 := set_stalePlayers (delete eref) st).
  assert (Inv st1) as HI1 by by apply Inv_delete_stale.
  assert (¬ is_stale st1 r) as Hr1.
  { intros [k Hkd]. simpl in Hkd.
    apply lookup_delete_Some in Hkd as [Hke Hkr].
    destruct (inv_stale _ HI _ _ Hkr) as (_ & _ & o' & Ho' & Hd').
    congruence. }
  change (sock_of st1 p) with (sock_of st p). rewrite Hs.
  apply Inv_set_id, Inv_switchState_None, Inv_set_id, Inv_postAuth.
  - apply Inv_switchState_Some; [done..|]. by exists o.
  - done.
Qed.

Lemma Inv_respawnOrAuth p nm key queue st :
  Inv st → p ∈ players st → Inv (respawnOrAuth p nm key queue st).
Proof.
  intros HI Hp. unfold respawnOrAuth.
  pose proof (Inv_tryRespawn p nm key queue st HI Hp) as HI'.
  destruct (tryRespawn p nm key queue st) as [st' b] eqn:Ht.
  destruct b; [done|]. simpl in HI'.
  unfold tryRespawn in Ht.
  destruct (stalePlayers st !! key); [done|]. injection Ht as <-.
  apply Inv_postAuth; [done|]. by apply Inv_not_both.
Qed.

Lemma tryRespawn_effect p nm eref queue st :
  Inv st → p ∈ players st →
  let st' := (tryRespawn p nm eref queue st).1 in
  let res := (tryRespawn p nm eref queue st).2 in
  (res = true ↔ is_Some (stalePlayers st !! eref))
  ∧ (res = false →
       st' = st
       ∧ respawnOrAuth p nm eref queue st
         = postAuth p nm eref queue false st)
  ∧ (res = true →
       respawnOrAuth p nm eref queue st = st'
       ∧ ∃ r, stalePlayers st !! eref = Some r
           ∧ r ≠ p
           ∧ stalePlayers st' = delete eref (stalePlayers st)
           ∧ stalePlayers st' !! eref = None
           ∧ sock_of st' r = sock_of st p
           ∧ is_Some (sock_of st' r)
           ∧ id_of st' r = id_of st p
           ∧ dbRef_of st' r = dbRef_of st r
           ∧ dbRef_of st' r = eref
           ∧ r ∈ players st'
           ∧ sock_of st' p = None
           ∧ id_of st' p = -1
           ∧ (p ∉ players st')
           ∧ trace st' = trace st ++
               [SwitchState r (sock_of st p);
                PostAuth r nm eref queue true;
                SwitchState p None]).
Proof.
  intros HI Hp st' res. subst st' res.
  unfold respawnOrAuth, tryRespawn.
  destruct (stalePlayers st !! eref) as [r|] eqn:Hk; simpl.
  - split; [by split; eauto|]. split; [done|]. intros _. split; [done|].
    destruct (inv_stale _ HI _ _ Hk) as (Hr & Hne & o & Ho & Hd).
    destruct (inv_live _ HI _ Hp) as (op & s & Hop & Hs).
    assert (r ≠ p) as Hrp by (intros ->; done).
    assert (sock_of st p = Some s) as Hsp by (unfold sock_of; by rewrite Hop).
    assert (sock_of (set_stalePlayers (delete eref) st) p = Some s) as ->
      by done.
    exists r. unfold sock_of, id_of, dbRef_of in *; simpl.
    rewrite Hop, Ho in *; simpl in *.
    rewrite !lookup_delete_eq.
    rewrite ?(lookup_alter_ne _ _ p r) by done.
    rewrite ?(lookup_alter_ne _ _ r p) by done.
    rewrite !lookup_alter_eq.
    rewrite ?(lookup_alter_ne _ _ p r) by done.
    rewrite ?(lookup_alter_ne _ _ r p) by done.
    rewrite ?Hop, ?Ho; simpl.
    rewrite ?lookup_alter_eq, ?(lookup_alter_ne _ _ r p) by done.
    rewrite ?Hop, ?Ho; simpl.
    split_and!; try done.
    + rewrite elem_of_set_delete, elem_of_set_add. tauto.
    + rewrite elem_of_set_delete. tauto.
    + rewrite Hs. by rewrite <- !app_assoc.
  - split; [split; [done|by intros [? ?]]|]. split; [done|done].
Qed.

(** What the two lines [if (!this.tryRespawn(...)) plr.postAuth(...)] leave
    behind. *)
Lemma respawnOrAuth_authenticates p nm key queue st :
  authenticates p nm key queue st (respawnOrAuth p nm key queue st).
Proof.
  unfold authenticates, respawnOrAuth, tryRespawn.
  destruct (stalePlayers st !! key) as [r|] eqn:Hk.
  - change (sock_of (set_stalePlayers (delete key) st) p)
      with (sock_of st p).
    split_and!.
    + by destruct (sock_of st p).
    + by destruct (sock_of st p).
    + by destruct (sock_of st p).
    + destruct (sock_of st p); simpl; by rewrite <- !app_assoc.
    + intros q Hqr Hqp. destruct (sock_of st p); simpl.
      * rewrite !lookup_alter_ne by done. split; [done|].
        rewrite elem_of_set_delete, elem_of_set_add. tauto.
      * rewrite !lookup_alter_ne by done. split; [done|].
        rewrite !elem_of_set_delete. tauto.
    + intros HI Hp.
      destruct (inv_stale _ HI _ _ Hk) as (Hr & Hne & o & Ho & Hd).
      destruct (inv_live _ HI _ Hp) as (op & s & Hop & Hs).
      assert (r ≠ p) as Hrp by (intros ->; done).
      assert (sock_of st p = Some s) as -> by (unfold sock_of; by rewrite Hop).
      simpl. split_and!.
      * done.
      * rewrite elem_of_set_delete, elem_of_set_add. tauto.
      * rewrite elem_of_set_delete. tauto.
      * exists o, op, s. split_and!; [done..| |].
        -- rewrite (lookup_alter_ne _ _ p r) by done.
           rewrite (lookup_alter_ne _ _ p r) by done.
           rewrite !lookup_alter_eq.
           unfold id_of. simpl.
           rewrite (lookup_alter_ne _ _ r p) by done.
           rewrite (lookup_alter_ne _ _ r p) by done.
           by rewrite Ho, Hop.
        -- rewrite !lookup_alter_eq.
           rewrite !(lookup_alter_ne _ _ r p) by done.
           by rewrite Hop.
  - simpl. split_and!; try done.
    + symmetry. by apply delete_id.
    + by rewrite lookup_alter_eq.
    + intros q Hq. by rewrite lookup_alter_ne.
Qed.

(** C2.  [tryRespawn(p, name, key, queue)] returns [true] exactly when [key]
    is in the stale registry.  When it returns [false] nothing has changed
    and the caller authenticates [p] normally.  When it returns [true] the
    caller does not; the stale entry for [key] is removed, and the stale
    player is switched to [p]'s socket, post-authenticated as a respawn
    with the pending queue, and [p] is switched to no connection.  For an
    active player [p] in a state satisfying the registry invariant, the
    stale player then holds [p]'s socket and [p]'s id, keeps its persistent
    identity and is active, while [p] has no connection, the id [-1], and
    is no longer active. *)
Theorem tryRespawn_spec p nm eref queue st :
  let st' := (tryRespawn p nm eref queue st).1 in
  let res := (tryRespawn p nm eref queue st).2 in
  (res = true ↔ is_Some (stalePlayers st !! eref))
  ∧ (res = false →
       st' = st
       ∧ respawnOrAuth p nm eref queue st
         = postAuth p nm eref queue false st)
  ∧ (res = true →
       respawnOrAuth p nm eref queue st = st'
       ∧ stalePlayers st' = delete eref (stalePlayers st)
       ∧ ∃ r, stalePlayers st !! eref = Some r
           ∧ trace st' = trace st ++
               [SwitchState r (sock_of st p);
                PostAuth r nm eref queue true;
                SwitchState p None])
  ∧ (Inv st → p ∈ players st → res = true →
       ∃ r, stalePlayers st !! eref = Some r
         ∧ r ≠ p
         ∧ sock_of st' r = sock_of st p
         ∧ is_Some (sock_of st' r)
         ∧ id_of st' r = id_of st p
         ∧ dbRef_of st' r = dbRef_of st r
         ∧ dbRef_of st' r = eref
         ∧ r ∈ players st'
         ∧ sock_of st' p = None
         ∧ id_of st' p = -1
         ∧ (p ∉ players st')).
Proof.
  intros st' res. split_and!.
  - subst res. unfold tryRespawn.
    destruct (stalePlayers st !! eref); simpl; split; eauto; try done.
  - subst st' res. unfold respawnOrAuth, tryRespawn.
    by destruct (stalePlayers st !! eref).
  - subst st' res. unfold respawnOrAuth, tryRespawn.
    destruct (stalePlayers st !! eref) as [r|]; [|done]. intros _.
    split; [done|].
    change (sock_of (set_stalePlayers (delete eref) st) p)
      with (sock_of st p).
    split; [by destruct (sock_of st p)|].
    exists r. split; [done|].
    destruct (sock_of st p); simpl; by rewrite <- !app_assoc.
  - intros HI Hp Hres.
    destruct (tryRespawn_effect p nm eref queue st HI Hp) as (_ & _ & Hyes).
    destruct (Hyes Hres)
      as (_ & r & ? & ? & _ & _ & ? & ? & ? & ? & ? & ? & ? & ? & ? & _).
    exists r. by split_and!.
Qed.

(** *** Transitions of the orchestrator *)

Section lifecycle.
Context `{Runtime} `{Utility}.

Lemma Inv_handleMSG env p msg st st' :
  Inv st → p ∈ players st → handleMSG env p msg st = Some st' → Inv st'.
Proof.
  intros HI Hp. unfold handleMSG.
  repeat case_bool_decide.
  - destruct (data msg) as [d|]; [|done]. intros [= <-].
    unfold handleLogin, loginSession, loginPassword.
    repeat (case_match; try by apply Inv_send);
      by apply Inv_respawnOrAuth.
  - destruct (data msg) as [d|]; [|done]. intros [= <-].
    unfold handleRegister, registerChecked.
    repeat (case_match; try by apply Inv_send).
    unfold randomizeAccess.
    assert (Inv_w : ∀ m1 p1 d1 m2 p2 d2,
              Inv (doDbSet m1 p1 d1 (doDbSet m2 p2 d2 st)))
      by (intros; by apply Inv_doDbSet, Inv_doDbSet).
    apply Inv_postAuth; [done|]. by apply Inv_not_both.
  - intros [= <-]. by apply Inv_fireDisconnection, Inv_doDbSet.
  - destruct (data msg) as [d|]; [|done]. intros [= <-].
    unfold handleSearch. case_match; by apply Inv_send, Inv_emit.
  - intros [= <-]. by apply Inv_emit, Inv_send.
  - intros [= <-]. by apply Inv_send.
Qed.

Lemma Inv_initial d : Inv (initial d).
Proof.
  split; simpl.
  - apply NoDup_nil_2.
  - intros p Hp. by apply elem_of_nil in Hp.
  - intros k r Hk. by rewrite lookup_empty in Hk.
Qed.

Lemma Inv_step st st' : Inv st → step st st' → Inv st'.
Proof.
  intros HI Hstep. destruct Hstep.
  - by apply Inv_newPlayer, Inv_set_pIds.
  - by eapply Inv_handleMSG.
  - by apply Inv_fireDisconnection.
  - by apply Inv_broadcast.
Qed.

Lemma reachable_Inv st : reachable st → Inv st.
Proof.
  induction 1 as [d|st st' _ IH Hstep]; [apply Inv_initial|].
  by eapply Inv_step.
Qed.

(** C1, as amended.  In every reachable state no player is in both the
    active set and the stale map.  The player that a login authenticates
    (the revived stale player, or the connecting player itself when there
    is nothing to revive) is active and not stale; an authenticated player
    whose connection drops is stale and not active; a player that logs out
    is in neither registry and has released its persistent identity. *)
Theorem registries_after_transition st :
  reachable st →
  (∀ p, ¬ (p ∈ players st ∧ is_stale st p))
  ∧ (∀ p nm key queue, p ∈ players st →
       let st' := respawnOrAuth p nm key queue st in
       ∃ q, (stalePlayers st !! key = Some q
             ∨ (stalePlayers st !! key = None ∧ q = p))
            ∧ dbRef_of st' q = key
            ∧ q ∈ players st' ∧ ¬ is_stale st' q)
  ∧ (∀ p, p ∈ players st → dbRef_of st p ≠ [] →
       let st' := fireDisconnection p false st in
       (p ∉ players st') ∧ is_stale st' p)
  ∧ (∀ p, p ∈ players st →
       let st' := handleLogout p st in
       (p ∉ players st') ∧ ¬ is_stale st' p ∧ dbRef_of st' p = []).
Proof.
  intros HI%reachable_Inv. split_and!.
  - intros p [Hp Hs]. by eapply Inv_not_both.
  - intros p nm key queue Hp st'.
    assert (Inv st') as HI' by by apply Inv_respawnOrAuth.
    destruct (tryRespawn_effect p nm key queue st HI Hp) as (Hiff & Hno & Hyes).
    destruct (stalePlayers st !! key) as [r|] eqn:Hk.
    + destruct Hyes as (Heq & r' & Hr' & _ & _ & _ & _ & _ & _ & _ & Hd & Hin & _).
      { apply Hiff. eauto. }
      injection Hr' as <-. exists r. subst st'. rewrite Heq.
      split_and!; [by left|done..|].
      rewrite <- Heq. apply Inv_not_both; [done|]. by rewrite Heq.
    + exists p. subst st'. rewrite tryRespawn_absent in Hno by done.
      destruct Hno as [_ ->]; [done|].
      destruct (inv_live _ HI _ Hp) as (o & s & Ho & Hs).
      split_and!; [by right| |done|].
      * unfold dbRef_of; simpl. by rewrite lookup_alter_eq, Ho.
      * intros [k Hk']. simpl in Hk'.
        by destruct (inv_stale _ HI _ _ Hk').
  - intros p Hp Hkey st'. subst st'. unfold fireDisconnection.
    rewrite bool_decide_eq_false_2 by done. simpl. split.
    + rewrite elem_of_set_delete. tauto.
    + exists (dbRef_of st p). simpl. by rewrite lookup_insert_eq.
  - intros p Hp st'. subst st'. unfold handleLogout.
    pose proof (Inv_not_both _ _ HI Hp) as Hns.
    destruct (inv_live _ HI _ Hp) as (o & s & Ho & _).
    unfold fireDisconnection. case_bool_decide as Hkey; simpl; split_and!.
    + rewrite elem_of_set_delete. tauto.
    + intros [k Hk]. apply Hns. by exists k.
    + unfold dbRef_of in *. simpl in *.
      rewrite lookup_alter_eq. by destruct (heap st !! p).
    + rewrite elem_of_set_delete. tauto.
    + intros [k Hk]. simpl in Hk. apply lookup_delete_Some in Hk as [_ Hk].
      apply Hns. by exists k.
    + unfold dbRef_of. simpl. rewrite !lookup_alter_eq, Ho. done.
Qed.

End lifecycle.

(** *** The message protocol *)

Lemma send_only_replies p ty d t st :
  only_replies (Send p ty d t) st (send p ty d t st).
Proof. by repeat split. Qed.

Lemma send_inj p ty d t p' ty' d' t' st :
  send p ty d t st = send p' ty' d' t' st →
  Send p ty d t = Send p' ty' d' t'.
Proof.
  intros Heq. apply (f_equal trace) in Heq. simpl in Heq.
  apply app_inv_head in Heq. congruence.
Qed.

(** *** The order of keys *)

Lemma lex_le_total (a : list Z) : ∀ b,
  lex_le a b = true ∨ lex_le b a = true.
Proof.
  induction a as [|x a IH]; intros [|y b]; simpl; auto.
  destruct (IH b) as [-> | ->];
    destruct (x <? y) eqn:?, (y <? x) eqn:?, (x =? y) eqn:?, (y =? x) eqn:?;
    simpl; auto; lia.
Qed.

Lemma lex_le_trans (a : list Z) : ∀ b c,
  lex_le a b = true → lex_le b c = true → lex_le a c = true.
Proof.
  induction a as [|x a IH]; intros [|y b] [|z c]; simpl; try done.
  intros Hab Hbc.
  apply orb_true_iff in Hab as [Hab|[Hab Hab']%andb_true_iff];
    apply orb_true_iff in Hbc as [Hbc|[Hbc Hbc']%andb_true_iff];
    apply orb_true_iff.
  - left. lia.
  - left. lia.
  - left. lia.
  - right. apply andb_true_iff. split; [lia|by eapply IH].
Qed.

#[local] Instance key_le_total :
  Total (λ a b : jstring * doc, Is_true (key_le a.1 b.1)).
Proof.
  intros a b. unfold key_le.
  destruct (lex_le_total (keyRank a.1) (keyRank b.1)) as [-> | ->]; auto.
Qed.

#[local] Instance key_le_trans :
  Transitive (λ a b : jstring * doc, Is_true (key_le a.1 b.1)).
Proof.
  intros a b c Hab%Is_true_true Hbc%Is_true_true. apply Is_true_true.
  by eapply lex_le_trans.
Qed.

(** The ordered children are the children. *)
Lemma elem_of_ordered (m : gmap jstring doc) k dc :
  (k, dc) ∈ ordered m ↔ m !! k = Some dc.
Proof.
  unfold ordered. rewrite merge_sort_Permutation.
  apply elem_of_map_to_list.
Qed.

Lemma elem_of_matching (key : string) (v : jsval) (m : gmap jstring doc)
    k dc :
  (k, dc) ∈ matching key v m ↔ m !! k = Some dc ∧ field dc key = v.
Proof.
  unfold matching. rewrite list_elem_of_filter, elem_of_ordered. simpl. tauto.
Qed.

Lemma ordered_sorted (m : gmap jstring doc) :
  StronglySorted (λ a b, Is_true (key_le a.1 b.1)) (ordered m).
Proof. apply StronglySorted_merge_sort; apply _. Qed.

Lemma filter_head_least {A} (R : relation A) (P : A → Prop)
    `{∀ x, Decision (P x)} (l : list A) x rest :
  (∀ y, R y y) → StronglySorted R l → filter P l = x :: rest →
  ∀ y, y ∈ l → P y → R x y.
Proof.
  intros Hrefl. induction l as [|a l IH]; intros Hs Hf y Hy HP.
  - by apply elem_of_nil in Hy.
  - apply StronglySorted_inv in Hs as [Hs Hall].
    rewrite filter_cons in Hf. destruct (decide (P a)) as [Ha|Ha].
    + injection Hf as -> _. apply elem_of_cons in Hy as [->|Hy]; [done|].
      by eapply Forall_forall in Hall.
    + apply elem_of_cons in Hy as [->|Hy]; [done|]. by apply IH.
Qed.

(** The first child a filtered read returns is the one whose key comes
    first, in the order of [Object.keys], among the children that hold the
    value. *)
Lemma matching_head_least (key : string) (v : jsval) (m : gmap jstring doc)
    k dc rest :
  matching key v m = (k, dc) :: rest →
  m !! k = Some dc ∧ field dc key = v
  ∧ ∀ k' dc', m !! k' = Some dc' → field dc' key = v → key_le k k' = true.
Proof.
  intros Hm.
  assert ((k, dc) ∈ matching key v m) as Hin by (rewrite Hm; left).
  apply elem_of_matching in Hin as [Hk Hf]. split_and!; [done..|].
  intros k' dc' Hk' Hf'. apply Is_true_true.
  change (Is_true (key_le (k, dc).1 (k', dc').1)).
  apply (filter_head_least (λ a b : jstring * doc, Is_true (key_le a.1 b.1))
           (λ kd, field kd.2 key = v) (ordered m) (k, dc) rest).
  - intros y. destruct (total (λ a b : jstring * doc,
                                 Is_true (key_le a.1 b.1)) y y); done.
  - apply ordered_sorted.
  - exact Hm.
  - by apply elem_of_ordered.
  - done.
Qed.

Section protocol.
Context `{Runtime} `{Utility}.

Lemma handleMSG_Login env plr d st :
  handleMSG env plr (mkMsg (JStr (jstr "Login")) (Some d)) st
  = Some (handleLogin env plr d st).
Proof. reflexivity. Qed.

Lemma handleMSG_Register env plr d st :
  handleMSG env plr (mkMsg (JStr (jstr "Register")) (Some d)) st
  = Some (handleRegister env plr d st).
Proof. reflexivity. Qed.

Lemma handleMSG_Logout env plr od st :
  handleMSG env plr (mkMsg (JStr (jstr "Logout")) od) st
  = Some (handleLogout plr st).
Proof. reflexivity. Qed.

Lemma handleMSG_default env plr msg st :
  ¬ recognized (type msg) →
  handleMSG env plr msg st = Some (handleDefault plr st).
Proof.
  intros Hn. unfold handleMSG, recognized in *.
  repeat (rewrite bool_decide_eq_false_2 by tauto). done.
Qed.

(** C8.  A message whose type is none of the five recognized ones is
    answered with one [Error] message, "Invalid request!"; the connection is
    not closed and no registry changes.  The reply is sent without the
    terminal flag that every other error reply of the handler carries. *)
Theorem unrecognized_reply env plr msg st :
  ¬ recognized (type msg) →
  ∃ st', handleMSG env plr msg st = Some st'
    ∧ only_replies (Send plr "Error" (Text "Invalid request!") false) st st'.
Proof.
  intros Hn. exists (handleDefault plr st). split.
  - by apply handleMSG_default.
  - apply send_only_replies.
Qed.

(** Every document the store returns for a session query carries that
    session. *)
Lemma matching_head (key : string) (v : jsval) (m : gmap jstring doc)
    (k : jstring) (dc : doc) rest :
  matching key v m = (k, dc) :: rest → field dc key = v.
Proof.
  intros Hm.
  assert ((k, dc) ∈ matching key v m) as Hin by (rewrite Hm; left).
  by apply elem_of_matching in Hin as [_ ?].
Qed.

Lemma dbGet_query (db : DB) (key : string) (v : jsval) :
  key ≠ EmptyString → truthy v = true →
  dbGet db Users key v = snapshot (matching key v (users db)).
Proof.
  intros Hk Hv. unfold dbGet.
  by rewrite bool_decide_eq_false_2, Hv by done.
Qed.

Lemma dbGet_user db k :
  dbGet db (User k) "" JUndef = from_option DDoc DNull (users db !! k).
Proof. done. Qed.

Lemma dbGet_code db :
  dbGet db RegAccessCode "" JUndef
  = from_option DVal DNull (regAccessCode db).
Proof. done. Qed.

(** C6.  A login that supplies a session token (a non-empty string) is
    decided by the token and the queue alone: the e-mail and the password of
    the payload are never looked at, so the password path is never entered.
    If the store has no document with that session, or the number after the
    bar in the token is not greater than the current time, the only thing
    that happens is one terminal warning, "Session expired! login again". *)
Theorem login_session_no_fallback env plr d st s :
  field d "sess" = JStr s → s ≠ [] →
  let st' := handleLogin env plr d st in
  handleMSG env plr (mkMsg (JStr (jstr "Login")) (Some d)) st = Some st'
  ∧ st' = loginSession env plr (JStr s) (field d "queue") st
  ∧ (∀ d', field d' "sess" = field d "sess" →
           field d' "queue" = field d "queue" →
           handleLogin env plr d' st = st')
  ∧ (matching "session" (JStr s) (users (db st)) = [] ∨
     num_gt (parseInt_opt (split_second 124 s)) (now env) = false →
     only_replies
       (Send plr "Warn" (Text "Session expired! login again") true) st st').
Proof.
  intros Hs Hne st'.
  assert (∀ d', field d' "sess" = JStr s →
            handleLogin env plr d' st
            = loginSession env plr (JStr s) (field d' "queue") st) as Hpath.
  { intros d' Hd'. unfold handleLogin. rewrite Hd'. simpl.
    by rewrite bool_decide_eq_false_2. }
  split_and!.
  - apply handleMSG_Login.
  - by apply Hpath.
  - intros d' Hs' Hq'. subst st'. rewrite !Hpath by congruence.
    by rewrite Hq'.
  - intros Hcase. subst st'. rewrite Hpath by done. unfold loginSession.
    rewrite dbGet_query; [|done|by simpl; rewrite bool_decide_eq_false_2].
    destruct (matching "session" (JStr s) (users (db st)))
      as [|[dref userDObj] rest] eqn:Hm; simpl.
    + apply send_only_replies.
    + destruct Hcase as [Hcase|Hcase]; [done|].
      rewrite (matching_head _ _ _ _ _ _ Hm). simpl. rewrite Hcase.
      apply send_only_replies.
Qed.

(** C7.  A login without a session token looks up the document under the
    directory key of the (lower-cased) e-mail.  No document: one terminal
    error asking to register first.  A document whose password hash differs
    from the hash of the supplied password: one terminal error naming the
    wrong password.  Matching hash, blocked account: one terminal warning.
    Matching hash, account not blocked: authentication proceeds under the
    name of the document and the directory key, by respawn when a stale
    player is filed under the key and by [postAuth] on the player itself
    otherwise, with the effects spelled out in [authenticates].  In the
    three failure cases nothing else happens: no connection is closed and
    the registries and the store are unchanged. *)
Theorem login_password_outcomes env plr d st :
  truthy (field d "sess") && is_string (field d "sess") = false →
  let key := loginKey (field d "email") in
  let st' := handleLogin env plr d st in
  handleMSG env plr (mkMsg (JStr (jstr "Login")) (Some d)) st = Some st'
  ∧ (users (db st) !! key = None →
       only_replies
         (Send plr "Error" (Text "Please register first to continue") true)
         st st')
  ∧ (∀ userDet, users (db st) !! key = Some userDet →
       (field userDet "pass" ≠ JStr (hash (field d "pass") None) →
          only_replies
            (Send plr "Error" (Text "Oh! It's wrong login password.") true)
            st st')
       ∧ (field userDet "pass" = JStr (hash (field d "pass") None) →
          truthy (field userDet "isBlocked") = true →
          only_replies
            (Send plr "Warn" (Text "Your are blocked by admin") true) st st')
       ∧ (field userDet "pass" = JStr (hash (field d "pass") None) →
          truthy (field userDet "isBlocked") = false →
          st' = respawnOrAuth plr (field userDet "name") key
                  (field d "queue") st
          ∧ authenticates plr (field userDet "name") key (field d "queue")
              st st')).
Proof.
  intros Hsess key st'. subst key st'. unfold handleLogin. rewrite Hsess.
  unfold loginPassword. rewrite dbGet_user.
  split_and!; [by rewrite handleMSG_Login; unfold handleLogin; rewrite Hsess|..].
  - intros ->. apply send_only_replies.
  - intros userDet ->. simpl. split_and!.
    + intros Hp. rewrite bool_decide_eq_false_2 by done.
      apply send_only_replies.
    + intros Hp Hb. rewrite bool_decide_eq_true_2, Hb by done.
      apply send_only_replies.
    + intros Hp Hb. rewrite bool_decide_eq_true_2, Hb by done.
      split; [done|apply respawnOrAuth_authenticates].
Qed.

End protocol.

(** *** Logout *)

Section logout.
Context `{Runtime} `{Utility}.

(** C9.  A [Logout] from a player with directory key [dbRef] first merges
    [{session: "null|0"}] into the document at [users/<dbRef>]: that field
    gets the marker, every other field of the document and every other
    document keep their value.  Only then is the explicit disconnection
    fired, and it adds no entry to the stale registry. *)
Theorem logout_marks_session env plr od st :
  let key := dbRef_of st plr in
  let old := default ∅ (users (db st) !! key) in
  let marker := JStr (jstr "null|0") in
  ∃ st' newdoc,
    handleMSG env plr (mkMsg (JStr (jstr "Logout")) od) st = Some st'
    ∧ users (db st') !! key = Some newdoc
    ∧ newdoc !! "session"%string = Some marker
    ∧ (∀ f, f ≠ "session"%string → newdoc !! f = old !! f)
    ∧ (∀ k, k ≠ key → users (db st') !! k = users (db st) !! k)
    ∧ regAccessCode (db st') = regAccessCode (db st)
    ∧ trace st' = trace st ++
        [DbWrite UPDATE (User key) (DDoc {["session"%string := marker]});
         FireDisconnection plr true]
    ∧ (∀ k r, stalePlayers st' !! k = Some r → stalePlayers st !! k = Some r)
    ∧ (plr ∉ players st').
Proof.
  intros key old marker.
  exists (handleLogout plr st), ({["session"%string := marker]} ∪ old).
  split; [apply handleMSG_Logout|].
  assert (∀ st1, db (fireDisconnection plr true st1) = db st1) as Hdb.
  { intros st1. unfold fireDisconnection. by repeat case_match. }
  assert (∀ st1, trace (fireDisconnection plr true st1)
                 = trace st1 ++ [FireDisconnection plr true]) as Htr.
  { intros st1. unfold fireDisconnection. by repeat case_match. }
  unfold handleLogout. rewrite Hdb, Htr. simpl. fold key. split_and!.
  - by rewrite lookup_insert_eq.
  - apply lookup_union_Some_l. by rewrite lookup_singleton_eq.
  - intros f Hf. apply lookup_union_r. by rewrite lookup_singleton_ne.
  - intros k Hk. by rewrite lookup_insert_ne.
  - done.
  - by rewrite <- app_assoc.
  - intros k r. unfold fireDisconnection. case_bool_decide; simpl; [done|].
    by intros [_ ?]%lookup_delete_Some.
  - unfold fireDisconnection. repeat case_match; simpl;
      rewrite elem_of_set_delete; tauto.
Qed.

End logout.

(** *** Registration *)

(** *** Rounding to a double *)

Lemma pow2_pos (e : Z) : (0 < 2 ^ e)%Q.
Proof. apply Qpower_0_lt. reflexivity. Qed.

Lemma pow2_le (a b : Z) : a ≤ b → (2 ^ a <= 2 ^ b)%Q.
Proof. intros. apply Qpower_le_compat_l; [done|]. by vm_compute. Qed.

Lemma pow2_lt (a b : Z) : a < b → (2 ^ a < 2 ^ b)%Q.
Proof. intros. apply Qpower_lt_compat_l; [done|]. by vm_compute. Qed.

Lemma pow2_inject (k : Z) : 0 ≤ k → (2 ^ k == inject_Z (2 ^ k))%Q.
Proof. intros Hk. symmetry. by apply (Zpower_Qpower 2). Qed.

Lemma pow2_split (a b : Z) : (2 ^ (a - b) * 2 ^ b == 2 ^ a)%Q.
Proof.
  rewrite <- Qpower_plus by (by vm_compute).
  by replace (a - b + b) with a by lia.
Qed.

Lemma binade_spec (x : Q) :
  (0 < x)%Q → (2 ^ binade x <= x)%Q ∧ (x < 2 ^ (binade x + 1))%Q.
Proof.
  intros Hx. unfold binade.
  destruct x as [n d]. cbn [Qnum Qden].
  assert (0 < n) as Hn by (unfold Qlt in Hx; simpl in Hx; lia).
  set (a := Z.log2 n). set (b := Z.log2 (Z.pos d)).
  destruct (Z.log2_spec n Hn) as [Ha1 Ha2]. fold a in Ha1, Ha2.
  destruct (Z.log2_spec (Z.pos d) ltac:(done)) as [Hb1 Hb2].
  fold b in Hb1, Hb2.
  assert (0 ≤ a) as Ha0 by apply Z.log2_nonneg.
  assert (0 ≤ b) as Hb0 by apply Z.log2_nonneg.
  assert ((n # d) * inject_Z (Z.pos d) == inject_Z n)%Q as Hnd.
  { unfold Qeq, Qmult, inject_Z. simpl. lia. }
  rewrite Zle_Qle in Ha1, Hb1. rewrite Zlt_Qlt in Ha2, Hb2.
  rewrite <- pow2_inject in Ha1, Ha2, Hb1, Hb2 by lia.
  pose proof (pow2_pos b) as Hpb. pose proof (pow2_pos (Z.succ b)) as Hpb'.
  assert (n # d < 2 ^ (a - b + 1))%Q as Hup.
  { pose proof (pow2_split (Z.succ a) b) as Hs.
    replace (Z.succ a - b) with (a - b + 1) in Hs by lia.
    pose proof (pow2_pos (a - b + 1)). nra. }
  assert (2 ^ (a - b - 1) < n # d)%Q as Hlo.
  { pose proof (pow2_split a (Z.succ b)) as Hs.
    replace (a - Z.succ b) with (a - b - 1) in Hs by lia.
    pose proof (pow2_pos (a - b - 1)). nra. }
  destruct (Qle_bool (2 ^ (a - b)) (n # d)) eqn:Hc.
  - apply Qle_bool_iff in Hc. by split.
  - assert (¬ (2 ^ (a - b) <= n # d)%Q) as Hc'
      by (rewrite <- Qle_bool_iff; congruence).
    apply Qnot_le_lt in Hc'.
    replace (a - b - 1 + 1) with (a - b) by lia.
    split; [by apply Qlt_le_weak|done].
Qed.

Lemma binade_le (x : Q) (B : Z) :
  (0 < x)%Q → (x < 2 ^ (B + 1))%Q → binade x ≤ B.
Proof.
  intros Hx Hlt. destruct (binade_spec x Hx) as [Hlo _].
  assert (2 ^ binade x < 2 ^ (B + 1))%Q as Hp
    by (eapply Qle_lt_trans; done).
  apply Qpower_lt_compat_l_inv in Hp; [lia|by vm_compute].
Qed.

Lemma binade_ge (x : Q) (B : Z) :
  (2 ^ B <= x)%Q → B ≤ binade x.
Proof.
  intros Hle.
  assert (0 < x)%Q as Hx by (eapply Qlt_le_trans; [apply pow2_pos|done]).
  destruct (binade_spec x Hx) as [_ Hhi].
  assert (2 ^ B < 2 ^ (binade x + 1))%Q as Hp
    by (eapply Qle_lt_trans; done).
  apply Qpower_lt_compat_l_inv in Hp; [lia|by vm_compute].
Qed.

(** Rounding to an integer does not cross an integer. *)
Lemma round_even_le (m : Q) (k : Z) :
  (m <= inject_Z k)%Q → round_even m ≤ k.
Proof.
  intros Hm. unfold round_even.
  pose proof (Qfloor_le m) as Hf.
  assert (Qfloor m ≤ k) as Hq.
  { assert (inject_Z (Qfloor m) <= inject_Z k)%Q as Hq by lra.
    by rewrite <- Zle_Qle in Hq. }
  assert ((1 # 2 <= m - inject_Z (Qfloor m))%Q → Qfloor m < k) as Hhalf.
  { intros Hh. rewrite Zlt_Qlt. lra. }
  destruct (Qcompare_spec (m - inject_Z (Qfloor m)) (1 # 2)) as [He|Hl|Hg].
  - assert (Qfloor m < k) by (apply Hhalf; lra).
    destruct (Z.even _); lia.
  - done.
  - assert (Qfloor m < k) by (apply Hhalf; lra). lia.
Qed.

Lemma round_even_ge (m : Q) (k : Z) :
  (inject_Z k <= m)%Q → k ≤ round_even m.
Proof.
  intros Hm. unfold round_even.
  assert (k ≤ Qfloor m) as Hq.
  { rewrite <- (Qfloor_Z k). by apply Qfloor_resp_le. }
  destruct (_ ?= _)%Q; [destruct (Z.even _)|..]; lia.
Qed.

(** [ulp x] is a power of two whose exponent follows the binade of [x]. *)
Lemma ulp_pos (x : Q) : (0 < ulp x)%Q.
Proof. apply pow2_pos. Qed.

(** A value that is a whole multiple of [2 ^ e0] is a whole multiple of
    every smaller power of two. *)
Lemma multiple_of_finer (n e0 e : Z) :
  e ≤ e0 →
  (inject_Z n * 2 ^ e0 == inject_Z (n * 2 ^ (e0 - e)) * 2 ^ e)%Q.
Proof.
  intros He. rewrite inject_Z_mult, <- pow2_inject by lia.
  rewrite <- Qmult_assoc, pow2_split. reflexivity.
Qed.

(** Rounding does not cross a value of the grid: [RNpos x] stays on the
    same side of [c] as [x] when [c] is a multiple of [ulp x]. *)
Lemma RNpos_le (x : Q) (n e0 : Z) :
  (0 < x)%Q → (x < 2 ^ (e0 + 53))%Q → -1074 ≤ e0 →
  (x <= inject_Z n * 2 ^ e0)%Q →
  (RNpos x <= inject_Z n * 2 ^ e0)%Q.
Proof.
  intros Hx Hb Hmin Hle. unfold RNpos, ulp.
  set (e := Z.max (binade x - 52) (-1074)).
  assert (e ≤ e0) as He.
  { assert (binade x ≤ e0 + 52) by (apply binade_le; [done|];
      by replace (e0 + 52 + 1) with (e0 + 53) by lia).
    unfold e. lia. }
  rewrite (multiple_of_finer n e0 e He) in *.
  pose proof (pow2_pos e) as Hp.
  apply Qmult_le_compat_r; [|by apply Qlt_le_weak].
  rewrite <- Zle_Qle. apply round_even_le.
  apply Qle_shift_div_r; done.
Qed.

Lemma RNpos_ge (x : Q) (n e0 : Z) :
  (0 < x)%Q → (x < 2 ^ (e0 + 53))%Q → -1074 ≤ e0 →
  (inject_Z n * 2 ^ e0 <= x)%Q →
  (inject_Z n * 2 ^ e0 <= RNpos x)%Q.
Proof.
  intros Hx Hb Hmin Hle. unfold RNpos, ulp.
  set (e := Z.max (binade x - 52) (-1074)).
  assert (e ≤ e0) as He.
  { assert (binade x ≤ e0 + 52) by (apply binade_le; [done|];
      by replace (e0 + 52 + 1) with (e0 + 53) by lia).
    unfold e. lia. }
  rewrite (multiple_of_finer n e0 e He) in *.
  pose proof (pow2_pos e) as Hp.
  apply Qmult_le_compat_r; [|by apply Qlt_le_weak].
  rewrite <- Zle_Qle. apply round_even_ge.
  apply Qle_shift_div_l; done.
Qed.

Lemma round_even_lower (m : Q) (k : Z) :
  (inject_Z k <= m)%Q → (m < inject_Z k + (1 # 2))%Q → round_even m = k.
Proof.
  intros Hlo Hhi. unfold round_even.
  assert (Qfloor m = k) as ->.
  { pose proof (Qfloor_le m) as Hf. pose proof (Qlt_floor m) as Hc.
    rewrite inject_Z_plus in Hc. change (inject_Z 1) with 1%Q in Hc.
    assert (inject_Z (Qfloor m) < inject_Z (k + 1))%Q as H1
      by (rewrite inject_Z_plus; change (inject_Z 1) with 1%Q; lra).
    assert (inject_Z k < inject_Z (Qfloor m + 1))%Q as H2
      by (rewrite inject_Z_plus; change (inject_Z 1) with 1%Q; lra).
    rewrite <- Zlt_Qlt in H1, H2. lia. }
  destruct (Qcompare_spec (m - inject_Z k) (1 # 2)) as [He|Hl|Hg];
    [lra|done|lra].
Qed.

Lemma RN_nonneg_bounds (x : Q) (lo hi e0 : Z) :
  (0 <= x)%Q → 0 ≤ lo → (x < 2 ^ (e0 + 53))%Q → -1074 ≤ e0 →
  (inject_Z lo * 2 ^ e0 <= x)%Q → (x <= inject_Z hi * 2 ^ e0)%Q →
  (inject_Z lo * 2 ^ e0 <= RN x)%Q ∧ (RN x <= inject_Z hi * 2 ^ e0)%Q.
Proof.
  intros Hx Hlo0 Hb Hmin Hlo Hhi. unfold RN.
  destruct (Qcompare_spec x 0) as [He|Hl|Hg].
  - rewrite He in Hlo, Hhi. done.
  - lra.
  - split; [by apply RNpos_ge|by apply RNpos_le].
Qed.

Lemma grid33 (n : Z) : (inject_Z (n * 2 ^ 33) * 2 ^ (-33) == inject_Z n)%Q.
Proof.
  rewrite inject_Z_mult.
  change (inject_Z (2 ^ 33)) with (8589934592 # 1)%Q.
  change (2 ^ (-33))%Q with (1 # 8589934592)%Q.
  unfold Qeq, Qmult. simpl. lia.
Qed.

Lemma newAccessCode_six_digits (rnd : Q) :
  (0 <= rnd)%Q → (rnd < 1)%Q →
  100000 ≤ newAccessCode rnd ∧ newAccessCode rnd ≤ 999999.
Proof.
  intros H0 H1. unfold newAccessCode, num_add, num_mul.
  remember (rnd * (999999 - 100000))%Q as a eqn:Hdef.
  assert (a == rnd * 899999)%Q as Ha by (rewrite Hdef; ring).
  clear Hdef.
  assert (2 ^ (-33 + 53) == 1048576)%Q as Ht by reflexivity.
  destruct (RN_nonneg_bounds a 0 (899999 * 2 ^ 33) (-33))
    as [Hr0 Hr1]; [lra|done|lra|done|..].
  { rewrite (grid33 0). change (inject_Z 0) with 0%Q. lra. }
  { rewrite grid33. change (inject_Z 899999) with 899999%Q. lra. }
  rewrite (grid33 0) in Hr0. rewrite grid33 in Hr1.
  change (inject_Z 0) with 0%Q in Hr0.
  change (inject_Z 899999) with 899999%Q in Hr1.
  destruct (RN_nonneg_bounds (RN a + 100000) (100000 * 2 ^ 33)
              (999999 * 2 ^ 33) (-33))
    as [Hy0 Hy1]; [lra|done|lra|done|..].
  { rewrite grid33. change (inject_Z 100000) with 100000%Q. lra. }
  { rewrite grid33. change (inject_Z 999999) with 999999%Q. lra. }
  rewrite grid33 in Hy0, Hy1.
  split.
  - rewrite <- (Qfloor_Z 100000). by apply Qfloor_resp_le.
  - rewrite <- (Qfloor_Z 999999). by apply Qfloor_resp_le.
Qed.

Lemma grid33_pred (n : Z) :
  (inject_Z (n * 2 ^ 33 - 1) * 2 ^ (-33) == inject_Z n - (1 # 8589934592))%Q.
Proof.
  unfold Z.sub. rewrite inject_Z_plus, inject_Z_mult.
  change (inject_Z (2 ^ 33)) with (8589934592 # 1)%Q.
  change (inject_Z (- (1))) with (- (1))%Q.
  change (2 ^ (-33))%Q with (1 # 8589934592)%Q.
  field.
Qed.

(** Every double below 1 is at most [1 - 2^-53]. *)
Lemma double_below_one (x : Q) :
  (0 <= x)%Q → (x < 1)%Q → (RN x == x)%Q → (x <= 1 - 2 ^ (-53))%Q.
Proof.
  intros H0 H1 Hd.
  change (2 ^ (-53))%Q with (1 # 9007199254740992)%Q.
  destruct (Qlt_le_dec x (1 # 2)) as [Hs|Hh]; [lra|].
  assert (0 < x)%Q as Hx by lra.
  unfold RN in Hd. destruct (Qcompare_spec x 0) as [He|Hl|Hg]; [lra|lra|].
  unfold RNpos, ulp in Hd.
  assert (binade x = -1) as Hb.
  { assert (binade x ≤ -1) by (apply binade_le; [done|by simpl]).
    assert (-1 ≤ binade x) by (by apply binade_ge). lia. }
  rewrite Hb in Hd.
  change (2 ^ Z.max (-1 - 52) (-1074))%Q with (1 # 9007199254740992)%Q in Hd.
  remember (round_even _) as r eqn:Hdef in Hd. clear Hdef.
  assert (inject_Z r < inject_Z 9007199254740992)%Q as Hr.
  { change (inject_Z 9007199254740992) with 9007199254740992%Q. lra. }
  rewrite <- Zlt_Qlt in Hr.
  assert (inject_Z r <= inject_Z 9007199254740991)%Q as Hr'
    by (rewrite <- Zle_Qle; lia).
  change (inject_Z 9007199254740991) with 9007199254740991%Q in Hr'.
  lra.
Qed.

Lemma newAccessCode_below (rnd : Q) :
  (0 <= rnd)%Q → (rnd <= 1 - 2 ^ (-53))%Q → newAccessCode rnd ≤ 999998.
Proof.
  intros H0 H1. unfold newAccessCode, num_add, num_mul.
  change (2 ^ (-53))%Q with (1 # 9007199254740992)%Q in H1.
  remember (rnd * (999999 - 100000))%Q as a eqn:Hdef.
  assert (a == rnd * 899999)%Q as Ha by (rewrite Hdef; ring).
  clear Hdef.
  assert (2 ^ (-33 + 53) == 1048576)%Q as Ht by reflexivity.
  assert (0 <= RN a)%Q as Hr0.
  { destruct (RN_nonneg_bounds a 0 (899999 * 2 ^ 33) (-33))
      as [Hr0 _]; [lra|done|lra|done|..].
    - rewrite (grid33 0). change (inject_Z 0) with 0%Q. lra.
    - rewrite grid33. change (inject_Z 899999) with 899999%Q. lra.
    - rewrite (grid33 0) in Hr0. exact Hr0. }
  assert (RN a <= 899999 - (1 # 8589934592))%Q as Hr1.
  { destruct (Qlt_le_dec (899999 - (1 # 8589934592)) a) as [Hbig|Hsmall].
    - unfold RN. destruct (Qcompare_spec a 0) as [He|Hl|Hg]; [lra|lra|].
      unfold RNpos, ulp.
      assert (binade a = 19) as ->.
      { assert (binade a ≤ 19) by (apply binade_le; [done|]; simpl; lra).
        assert (19 ≤ binade a)
          by (apply binade_ge; change (2 ^ 19)%Q with 524288%Q; lra).
        lia. }
      change (2 ^ Z.max (19 - 52) (-1074))%Q with (1 # 8589934592)%Q.
      rewrite (round_even_lower _ (899999 * 2 ^ 33 - 1)).
      + change (inject_Z (899999 * 2 ^ 33 - 1)) with 7730932542865407%Q. lra.
      + change (inject_Z (899999 * 2 ^ 33 - 1)) with 7730932542865407%Q.
        apply Qle_shift_div_l; [done|]. lra.
      + change (inject_Z (899999 * 2 ^ 33 - 1)) with 7730932542865407%Q.
        apply Qlt_shift_div_r; [done|]. lra.
    - destruct (RN_nonneg_bounds a 0 (899999 * 2 ^ 33 - 1) (-33))
        as [_ Hr1]; [lra|done|lra|done|..].
      + rewrite (grid33 0). change (inject_Z 0) with 0%Q. lra.
      + rewrite grid33_pred. change (inject_Z 899999) with 899999%Q. lra.
      + rewrite grid33_pred in Hr1. exact Hr1. }
  destruct (RN_nonneg_bounds (RN a + 100000) 0 (999999 * 2 ^ 33 - 1) (-33))
    as [_ Hy1]; [lra|done|lra|done|..].
  { rewrite (grid33 0). change (inject_Z 0) with 0%Q. lra. }
  { rewrite grid33_pred. change (inject_Z 999999) with 999999%Q. lra. }
  rewrite grid33_pred in Hy1. change (inject_Z 999999) with 999999%Q in Hy1.
  pose proof (Qfloor_le (RN (RN a + 100000))) as Hf.
  assert (inject_Z (Qfloor (RN (RN a + 100000))) < inject_Z 999999)%Q as Hlt.
  { change (inject_Z 999999) with 999999%Q. lra. }
  rewrite <- Zlt_Qlt in Hlt. lia.
Qed.

(** X3.  For a draw of [Math.random()], which is at least 0 and below 1,
    the new access code has six digits: it lies between 100000 and 999999.
    The draw is itself a double, and then 999999 is never reached: the code
    is at most 999998. *)
Theorem newAccessCode_range (rnd : Q) :
  (0 <= rnd)%Q → (rnd < 1)%Q →
  (100000 ≤ newAccessCode rnd ∧ newAccessCode rnd ≤ 999999)
  ∧ ((RN rnd == rnd)%Q → newAccessCode rnd ≤ 999998).
Proof.
  intros H0 H1. split; [by apply newAccessCode_six_digits|].
  intros Hd. apply newAccessCode_below; [done|].
  by apply double_below_one.
Qed.

Section registration.
Context `{Runtime} `{Utility}.

Lemma accessMatches_spec st access :
  accessMatches st access
  = loose_eq (default JNull (regAccessCode (db st))) access.
Proof.
  unfold accessMatches. rewrite dbGet_code.
  by destruct (regAccessCode (db st)).
Qed.

Lemma registerChecked_not_invalid env plr d st :
  registerChecked env plr d st
  ≠ send plr "Error" (Text "Access code is invalid!") true st.
Proof.
  unfold registerChecked.
  repeat case_match;
    try (intros Heq%send_inj; discriminate Heq).
  intros Heq%(f_equal trace). simpl in Heq.
  rewrite <- !app_assoc in Heq. apply app_inv_head in Heq. discriminate Heq.
Qed.

(** C10.  The registration gate compares with [==].  When the store holds
    nothing at [regAccessCode] and the payload's [access] is [null] or
    missing, the comparison succeeds and the request goes on to field
    validation; so does a string [access] whose numeric value is the stored
    number.  Field validation never answers "Access code is invalid!". *)
Theorem register_gate_loose env plr d st :
  (regAccessCode (db st) = None →
   field d "access" = JNull ∨ field d "access" = JUndef →
   handleRegister env plr d st = registerChecked env plr d st)
  ∧ (∀ n s, regAccessCode (db st) = Some (JNum n) →
       field d "access" = JStr s → StringToNumber s = Some n →
       handleRegister env plr d st = registerChecked env plr d st)
  ∧ handleMSG env plr (mkMsg (JStr (jstr "Register")) (Some d)) st
    = Some (handleRegister env plr d st)
  ∧ registerChecked env plr d st
    ≠ send plr "Error" (Text "Access code is invalid!") true st.
Proof.
  split_and!.
  - intros Hc Ha. unfold handleRegister. rewrite accessMatches_spec, Hc.
    by destruct Ha as [-> | ->].
  - intros n s Hc Ha Hs. unfold handleRegister.
    rewrite accessMatches_spec, Hc, Ha. simpl. rewrite Hs.
    by rewrite Z.eqb_refl.
  - apply handleMSG_Register.
  - apply registerChecked_not_invalid.
Qed.

(** X4.  What a successful [Register] does: the account document is stored under
    the directory key of the normalised e-mail, the access code is replaced
    by the freshly drawn one, the player is authenticated without going
    through respawn, and a later [Register] is turned away as invalid
    exactly when its [access] does not loosely equal the new code. *)
Lemma register_success env plr d st nm em pw :
  accessMatches st (field d "access") = true →
  field d "name" = JStr nm → field d "email" = JStr em →
  field d "pass" = JStr pw →
  nm ≠ [] → em ≠ [] → pw ≠ [] →
  (4 ≤ length nm ≤ 20)%nat →
  isValidPassword pw = true → isValidEmail em = true →
  let email := toLowerCase (trim em) in
  let key := hash (JStr email) (Some "md5"%string) in
  users (db st) !! key = None →
  let code := newAccessCode (random env) in
  let st' := handleRegister env plr d st in
  users (db st') = <[key := accountDoc pw email (trim nm)]> (users (db st))
  ∧ regAccessCode (db st') = Some (JNum code)
  ∧ stalePlayers st' = stalePlayers st
  ∧ players st' = players st
  ∧ trace st' = trace st ++
      [DbWrite WRITE (User key) (DDoc (accountDoc pw email (trim nm)));
       DbWrite WRITE RegAccessCode (DVal (JNum code));
       PostAuth plr (JStr (trim nm)) key JUndef false]
  ∧ (∀ env2 plr2 d2,
       handleRegister env2 plr2 d2 st'
       = send plr2 "Error" (Text "Access code is invalid!") true st'
       ↔ loose_eq (JNum code) (field d2 "access") = false).
Proof.
  intros Hacc Hnm Hem Hpw Hn0 He0 Hp0 [Hlo Hhi] Hvp Hve email key Hfree
    code st'.
  assert (st' = postAuth plr (JStr (trim nm)) key JUndef false
                  (randomizeAccess env
                     (doDbSet WRITE (User key)
                        (DDoc (accountDoc pw email (trim nm))) st))) as ->.
  { subst st'. unfold handleRegister. rewrite Hacc.
    unfold registerChecked. rewrite Hnm, Hem, Hpw. simpl.
    rewrite !bool_decide_eq_false_2 by done. simpl.
    rewrite (proj2 (Nat.ltb_ge _ _)) by lia.
    rewrite (proj2 (Nat.ltb_ge _ _)) by lia.
    rewrite Hvp, Hve. simpl. fold email. fold key.
    rewrite dbGet_user, Hfree. done. }
  split_and!; try done.
  - simpl. by rewrite <- !app_assoc.
  - intros env2 plr2 d2. unfold handleRegister.
    rewrite accessMatches_spec.
    match goal with
    | |- context [default JNull ?c] => change (default JNull c) with (JNum code)
    end.
    destruct (loose_eq (JNum code) (field d2 "access")); split; try done.
    intros Heq. by apply registerChecked_not_invalid in Heq.
Qed.

(** What the two length guards do enforce.  Once the access code has been
    accepted, a request that is not turned away with a terminal error has a
    [name] that is a string of 4 to 20 characters as received; and a [name]
    that is not such a string is turned away with one terminal error,
    nothing being written. *)
Theorem register_name_length env plr d st :
  accessMatches st (field d "access") = true →
  let st' := handleRegister env plr d st in
  ((∀ text, st' ≠ send plr "Error" (Text text) true st) →
     ∃ nm, field d "name" = JStr nm ∧ (4 ≤ length nm ≤ 20)%nat)
  ∧ ((∀ nm, field d "name" = JStr nm → ¬ (4 ≤ length nm ≤ 20)%nat) →
     ∃ text, only_replies (Send plr "Error" (Text text) true) st st').
Proof.
  intros Hacc st'. subst st'. unfold handleRegister. rewrite Hacc.
  unfold registerChecked. split.
  - intros Hacc'.
    destruct (field d "name") as [| | | |nm|] eqn:Hnm;
      try (exfalso; eapply Hacc'; reflexivity).
    destruct (field d "email") as [| | | |em|] eqn:Hem;
      try (exfalso; eapply Hacc'; reflexivity).
    destruct (field d "pass") as [| | | |pw|] eqn:Hpw;
      try (exfalso; eapply Hacc'; reflexivity).
    destruct (_ || _); [exfalso; eapply Hacc'; reflexivity|].
    destruct (length nm <? 4)%nat eqn:Hlo;
      [exfalso; eapply Hacc'; reflexivity|].
    destruct (20 <? length nm)%nat eqn:Hhi;
      [exfalso; eapply Hacc'; reflexivity|].
    apply Nat.ltb_ge in Hlo, Hhi. exists nm. split; [done|lia].
  - intros Hbad.
    assert (∀ text, ∃ text', only_replies (Send plr "Error" (Text text') true)
                      st (send plr "Error" (Text text) true st)) as Hrep
      by (intros text; exists text; apply send_only_replies).
    destruct (field d "name") as [| | | |nm|] eqn:Hnm; try apply Hrep.
    destruct (field d "email") as [| | | |em|]; try apply Hrep.
    destruct (field d "pass") as [| | | |pw|]; try apply Hrep.
    destruct (_ || _); [apply Hrep|].
    destruct (length nm <? 4)%nat eqn:Hlo; [apply Hrep|].
    destruct (20 <? length nm)%nat eqn:Hhi; [apply Hrep|].
    apply Nat.ltb_ge in Hlo, Hhi. exfalso. eapply Hbad; [done|lia].
Qed.

End registration.

(** *** The store adapter *)

(** X1.  What [dbSet] writes, [dbGet] reads back: a storable document at an
    account path, a value at the code path; after a removal the path reads
    as [null]; and no write at one account path or at the code path is seen
    at another path. *)
Theorem store_round_trip (b : DB) (k : jstring) (d : doc) (v : jsval) :
  storable d → v ≠ JNull → v ≠ JUndef →
  dbGet (dbSet b WRITE (User k) (DDoc d)) (User k) "" JUndef = DDoc d
  ∧ dbGet (dbSet b WRITE RegAccessCode (DVal v)) RegAccessCode "" JUndef
    = DVal v
  ∧ dbGet (dbSet b REMOVE (User k) DNull) (User k) "" JUndef = DNull
  ∧ dbGet (dbSet b REMOVE RegAccessCode DNull) RegAccessCode "" JUndef
    = DNull
  ∧ (∀ mode data k', k ≠ k' →
       dbGet (dbSet b mode (User k) data) (User k') "" JUndef
       = dbGet b (User k') "" JUndef)
  ∧ (∀ mode data,
       dbGet (dbSet b mode (User k) data) RegAccessCode "" JUndef
       = dbGet b RegAccessCode "" JUndef)
  ∧ (∀ mode data k',
       dbGet (dbSet b mode RegAccessCode data) (User k') "" JUndef
       = dbGet b (User k') "" JUndef).
Proof.
  intros _ Hn Hu. split_and!.
  - unfold dbGet, dbSet; simpl. by rewrite lookup_insert_eq.
  - by destruct v.
  - unfold dbGet, dbSet; simpl. by rewrite lookup_delete_eq.
  - done.
  - intros mode data k' Hk. unfold dbGet; simpl. f_equal.
    destruct mode, data; simpl;
      rewrite ?lookup_insert_ne, ?lookup_delete_ne by done; done.
  - intros mode data. by destruct mode, data.
  - intros mode data k'. destruct mode, data as [|[]| |]; done.
Qed.

(** X2.  The filter of [dbGet] applies only when both the key and the value
    are truthy; otherwise the read is the plain read of the path.  When it
    applies to the accounts, the result is [null] exactly when no account
    has the value in that field, and otherwise holds exactly the accounts
    that have it. *)
Theorem filtered_read (b : DB) (path : Path) (key : string) (v : jsval) :
  (key = EmptyString ∨ truthy v = false →
   dbGet b path key v = dbGet b path "" JUndef)
  ∧ (key ≠ EmptyString → truthy v = true →
     (dbGet b Users key v = DNull
      ↔ ∀ k dc, users b !! k = Some dc → field dc key ≠ v)
     ∧ (∀ ds, dbGet b Users key v = DDocs ds →
          ∀ k dc, (k, dc) ∈ ds ↔ users b !! k = Some dc ∧ field dc key = v)).
Proof.
  split.
  - intros Hoff. unfold dbGet. simpl.
    destruct Hoff as [-> | ->]; [done|]. by rewrite andb_false_r.
  - intros Hk Hv. rewrite dbGet_query by done.
    assert (∀ k dc, (k, dc) ∈ matching key v (users b)
                    ↔ users b !! k = Some dc ∧ field dc key = v) as Hm.
    { intros k dc. apply elem_of_matching. }
    destruct (matching key v (users b)) as [|[k0 d0] rest] eqn:Heq; simpl.
    + split.
      * split; [|done]. intros _ k dc Hdc Hf.
        assert ((k, dc) ∈ []) as Hin by (apply Hm; done).
        by apply elem_of_nil in Hin.
      * intros ds Hds. discriminate Hds.
    + split.
      * split; [done|]. intros Hnone. exfalso.
        assert ((k0, d0) ∈ (k0, d0) :: rest) as Hin by left.
        apply Hm in Hin as [Hl Hf]. by eapply Hnone.
      * intros ds [= <-]. apply Hm.
Qed.

(** *** Registration, continued *)

Lemma trimStart_suffix (s : jstring) : ∃ pre, s = pre ++ trimStart s.
Proof.
  induction s as [|c s [pre IH]]; [by exists []|]. simpl.
  destruct (is_space c).
  - exists (c :: pre). simpl. by rewrite <- IH.
  - by exists [].
Qed.

Lemma trimStart_head (s : jstring) c :
  head (trimStart s) = Some c → is_space c = false.
Proof.
  induction s as [|a s IH]; [done|]. simpl.
  destruct (is_space a) eqn:Ha; [done|]. simpl. by intros [= <-].
Qed.

Lemma length_trimStart (s : jstring) : (length (trimStart s) ≤ length s)%nat.
Proof.
  destruct (trimStart_suffix s) as [pre Hs]. rewrite Hs at 2.
  rewrite length_app. lia.
Qed.

Lemma length_trim (s : jstring) : (length (trim s) ≤ length s)%nat.
Proof.
  unfold trim. rewrite length_reverse.
  etrans; [apply length_trimStart|]. rewrite length_reverse.
  apply length_trimStart.
Qed.

Lemma trim_ends (s : jstring) c :
  head (trim s) = Some c ∨ last (trim s) = Some c → is_space c = false.
Proof.
  unfold trim. set (t := trimStart s).
  intros [Hh|Hl].
  - rewrite head_reverse in Hh.
    destruct (trimStart_suffix (reverse t)) as [pre Hpre].
    assert (last (reverse t) = Some c) as Hlast.
    { rewrite Hpre. destruct (trimStart (reverse t)) as [|a u] eqn:Hu;
        [done|]. by rewrite last_app_cons. }
    rewrite last_reverse in Hlast. by apply (trimStart_head s).
  - rewrite last_reverse in Hl. by apply (trimStart_head (reverse t)).
Qed.

Section registration_more.
Context `{Runtime} `{Utility}.

Lemma handleRegister_passes env plr d st nm em pw :
  passes_register st d nm em pw →
  handleRegister env plr d st = registered env plr nm em pw st.
Proof.
  intros (Hacc & Hnm & Hem & Hpw & Hn0 & He0 & Hp0 & [Hlo Hhi] & Hvp & Hve
          & Hfree).
  unfold handleRegister. rewrite Hacc.
  unfold registerChecked. rewrite Hnm, Hem, Hpw. simpl.
  rewrite !bool_decide_eq_false_2 by done. simpl.
  rewrite (proj2 (Nat.ltb_ge _ _)) by lia.
  rewrite (proj2 (Nat.ltb_ge _ _)) by lia.
  rewrite Hvp, Hve. simpl. fold (registerKey em).
  rewrite dbGet_user, Hfree. done.
Qed.

Lemma handleRegister_cases env plr d st :
  (∃ text, handleRegister env plr d st
           = send plr "Error" (Text text) true st)
  ∨ (∃ nm em pw, passes_register st d nm em pw).
Proof.
  unfold handleRegister.
  destruct (accessMatches st (field d "access")) eqn:Hacc; [|by left; eauto].
  unfold registerChecked.
  destruct (field d "name") as [| | | |nm|] eqn:Hnm; try (by left; eauto).
  destruct (field d "email") as [| | | |em|] eqn:Hem; try (by left; eauto).
  destruct (field d "pass") as [| | | |pw|] eqn:Hpw; try (by left; eauto).
  destruct (negb (truthy (JStr nm)) || negb (truthy (JStr em))
            || negb (truthy (JStr pw))) eqn:Hne; [by left; eauto|].
  destruct (length nm <? 4)%nat eqn:Hlo; [by left; eauto|].
  destruct (20 <? length nm)%nat eqn:Hhi; [by left; eauto|].
  destruct (isValidPassword pw) eqn:Hvp; simpl; [|by left; eauto].
  destruct (isValidEmail em) eqn:Hve; simpl; [|by left; eauto].
  rewrite dbGet_user. fold (registerKey em).
  destruct (users (db st) !! registerKey em) eqn:Hfree; simpl;
    [by left; eauto|].
  right. exists nm, em, pw.
  apply orb_false_elim in Hne as [Hne Hp0].
  apply orb_false_elim in Hne as [Hn0 He0].
  simpl in Hn0, He0, Hp0. rewrite negb_involutive in Hn0, He0, Hp0.
  apply bool_decide_eq_false in Hn0, He0, Hp0.
  apply Nat.ltb_ge in Hlo, Hhi.
  unfold passes_register. split_and!; done || lia.
Qed.

(** X5.  A [Register] request is all or nothing: either it passes every
    check and leaves the state of a completed registration, or it is
    answered with one terminal [Error] and nothing else changes: no
    account is written and the access code is not rotated. *)
Theorem register_all_or_nothing env plr d st :
  (∃ text, only_replies (Send plr "Error" (Text text) true) st
             (handleRegister env plr d st))
  ∨ (∃ nm em pw, passes_register st d nm em pw
       ∧ handleRegister env plr d st = registered env plr nm em pw st).
Proof.
  destruct (handleRegister_cases env plr d st) as [[text ->]|(nm & em & pw & Hp)].
  - left. exists text. apply send_only_replies.
  - right. exists nm, em, pw. split; [done|]. by apply handleRegister_passes.
Qed.

(** X6.  [Register] never alters an account that exists: whatever the
    payload, every document in the store before the request is there,
    unchanged, after it. *)
Theorem register_keeps_accounts env plr d st k dc :
  users (db st) !! k = Some dc →
  users (db (handleRegister env plr d st)) !! k = Some dc.
Proof.
  intros Hk.
  destruct (handleRegister_cases env plr d st) as [[text ->]|(nm & em & pw & Hp)];
    [done|].
  rewrite (handleRegister_passes env plr d st nm em pw Hp). simpl.
  destruct Hp as (_ & _ & _ & _ & _ & _ & _ & _ & _ & _ & Hfree).
  rewrite lookup_insert_ne; [done|]. congruence.
Qed.

(** X7.  Registration and login agree on the directory key and the password
    hash: after a registration that passed every check, a password login
    with an e-mail that lower-cases to the stored address and with the same
    password is authenticated under the registered name and key, by
    respawn or on the player itself, with the effects spelled out in
    [authenticates]; with a password whose hash differs it gets the
    wrong-password error and nothing else. *)
Theorem register_then_login env plr d st nm em pw env2 plr2 d2 em2 :
  passes_register st d nm em pw →
  truthy (field d2 "sess") && is_string (field d2 "sess") = false →
  field d2 "email" = JStr em2 →
  toLowerCase em2 = toLowerCase (trim em) →
  let st1 := handleRegister env plr d st in
  (field d2 "pass" = JStr pw →
     handleLogin env2 plr2 d2 st1
     = respawnOrAuth plr2 (JStr (trim nm)) (registerKey em)
         (field d2 "queue") st1
     ∧ authenticates plr2 (JStr (trim nm)) (registerKey em)
         (field d2 "queue") st1 (handleLogin env2 plr2 d2 st1))
  ∧ (hash (field d2 "pass") None ≠ hash (JStr pw) None →
     only_replies
       (Send plr2 "Error" (Text "Oh! It's wrong login password.") true)
       st1 (handleLogin env2 plr2 d2 st1)).
Proof.
  intros Hp Hsess Hem2 Hlow st1. subst st1.
  rewrite (handleRegister_passes env plr d st nm em pw Hp).
  unfold handleLogin. rewrite Hsess. unfold loginPassword.
  rewrite Hem2. rewrite dbGet_user. unfold loginKey. rewrite Hlow.
  fold (registerKey em).
  assert (users (db (registered env plr nm em pw st)) !! registerKey em
          = Some (accountDoc pw (toLowerCase (trim em)) (trim nm))) as ->
    by (simpl; apply lookup_insert_eq).
  simpl. split.
  - intros ->. rewrite bool_decide_eq_true_2;
      [split; [done|apply respawnOrAuth_authenticates]|].
    unfold accountDoc, field. by rewrite lookup_insert_eq.
  - intros Hne. rewrite bool_decide_eq_false_2; [apply send_only_replies|].
    intros Heq. apply Hne. unfold accountDoc in Heq.
    unfold field in Heq at 1. rewrite lookup_insert_eq in Heq.
    simpl in Heq. congruence.
Qed.

(** X8.  An address can be registered once: after a registration that passed
    every check, a later [Register] for an e-mail with the same directory
    key that presents a matching access code and valid fields is answered
    "User already exists!" and changes nothing. *)
Theorem register_twice env plr d st nm em pw env2 plr2 d2 nm2 em2 pw2 :
  passes_register st d nm em pw →
  let st1 := handleRegister env plr d st in
  accessMatches st1 (field d2 "access") = true →
  field d2 "name" = JStr nm2 → field d2 "email" = JStr em2 →
  field d2 "pass" = JStr pw2 →
  nm2 ≠ [] → em2 ≠ [] → pw2 ≠ [] →
  (4 ≤ length nm2 ≤ 20)%nat →
  isValidPassword pw2 = true → isValidEmail em2 = true →
  registerKey em2 = registerKey em →
  only_replies
    (Send plr2 "Error"
       (Text "User already exists! Please login to continue.") true)
    st1 (handleRegister env2 plr2 d2 st1).
Proof.
  intros Hp st1 Hacc Hnm Hem Hpw Hn0 He0 Hp0 [Hlo Hhi] Hvp Hve Hkey.
  assert (is_Some (users (db st1) !! registerKey em2)) as [dc Hdc].
  { subst st1. rewrite (handleRegister_passes env plr d st nm em pw Hp).
    simpl. rewrite Hkey, lookup_insert_eq. eauto. }
  unfold handleRegister. rewrite Hacc.
  unfold registerChecked. rewrite Hnm, Hem, Hpw. simpl.
  rewrite !bool_decide_eq_false_2 by done. simpl.
  rewrite (proj2 (Nat.ltb_ge _ _)) by lia.
  rewrite (proj2 (Nat.ltb_ge _ _)) by lia.
  rewrite Hvp, Hve. simpl. fold (registerKey em2).
  rewrite dbGet_user, Hdc. simpl. apply send_only_replies.
Qed.

(** X9.  The account written by a registration that passed every check
    carries the trimmed name: it has at most 20 characters, and neither its
    first nor its last character is white space. *)
Theorem stored_name_trimmed env plr d st nm em pw :
  passes_register st d nm em pw →
  ∃ dc stored,
    users (db (handleRegister env plr d st)) !! registerKey em = Some dc
    ∧ field dc "name" = JStr stored
    ∧ stored = trim nm
    ∧ (length stored ≤ 20)%nat
    ∧ (∀ c, head stored = Some c ∨ last stored = Some c →
            is_space c = false).
Proof.
  intros Hp. rewrite (handleRegister_passes env plr d st nm em pw Hp).
  destruct Hp as (_ & _ & _ & _ & _ & _ & _ & [_ Hhi] & _).
  eexists _, (trim nm). simpl. rewrite lookup_insert_eq.
  split_and!; [done|done|done| |apply trim_ends].
  pose proof (length_trim nm). lia.
Qed.

End registration_more.

(** *** Respawn, continued *)

Lemma tryRespawn_keeps p nm eref queue st :
  db (tryRespawn p nm eref queue st).1 = db st
  ∧ pIds (tryRespawn p nm eref queue st).1 = pIds st.
Proof.
  unfold tryRespawn. destruct (stalePlayers st !! eref); [|done].
  change (sock_of (set_stalePlayers (delete eref) st) p) with (sock_of st p).
  by destruct (sock_of st p).
Qed.

Lemma respawnOrAuth_keeps p nm key queue st :
  db (respawnOrAuth p nm key queue st) = db st
  ∧ pIds (respawnOrAuth p nm key queue st) = pIds st.
Proof.
  unfold respawnOrAuth.
  pose proof (tryRespawn_keeps p nm key queue st) as [Hd Hp].
  destruct (tryRespawn p nm key queue st) as [st' []]; simpl in *; done.
Qed.

(** X10.  Respawn happens once per stale entry: after a [tryRespawn] that
    returned [true] for a key, every further [tryRespawn] for that key, by
    any player, returns [false] and changes nothing. *)
Theorem tryRespawn_once p nm eref queue st p2 nm2 queue2 :
  (tryRespawn p nm eref queue st).2 = true →
  let st1 := (tryRespawn p nm eref queue st).1 in
  tryRespawn p2 nm2 eref queue2 st1 = (st1, false).
Proof.
  intros Hres st1. apply tryRespawn_absent. subst st1.
  unfold tryRespawn in *.
  destruct (stalePlayers st !! eref); [|done].
  change (sock_of (set_stalePlayers (delete eref) st) p) with (sock_of st p).
  destruct (sock_of st p); simpl; apply lookup_delete_eq.
Qed.

(** X11.  [tryRespawn] touches only what it names: the store and the id
    counter are unchanged, every stale entry under another key is
    unchanged, every player object other than [p] and the revived one is
    unchanged, and no other active player leaves the active set. *)
Theorem tryRespawn_frame p nm eref queue st :
  let st' := (tryRespawn p nm eref queue st).1 in
  db st' = db st ∧ pIds st' = pIds st
  ∧ (∀ k, k ≠ eref → stalePlayers st' !! k = stalePlayers st !! k)
  ∧ (∀ q, q ≠ p → stalePlayers st !! eref ≠ Some q →
       heap st' !! q = heap st !! q)
  ∧ (∀ q, q ≠ p → stalePlayers st !! eref ≠ Some q →
       q ∈ players st → q ∈ players st').
Proof.
  intros st'. subst st'. unfold tryRespawn.
  destruct (stalePlayers st !! eref) as [r|]; [|done].
  change (sock_of (set_stalePlayers (delete eref) st) p) with (sock_of st p).
  destruct (sock_of st p); simpl; split_and!; try done.
  - intros k Hk. by rewrite lookup_delete_ne.
  - intros q Hqp Hqr. assert (r ≠ q) by congruence.
    by rewrite !lookup_alter_ne.
  - intros q Hqp _ Hq. rewrite elem_of_set_delete, elem_of_set_add. tauto.
  - intros k Hk. by rewrite lookup_delete_ne.
  - intros q Hqp Hqr. assert (r ≠ q) by congruence.
    by rewrite !lookup_alter_ne.
  - intros q Hqp Hqr Hq. rewrite !elem_of_set_delete.
    split; [done|]. split; [congruence|done].
Qed.

(** *** The message protocol, continued *)

Lemma split_second_no_sep (sep : N) (s : jstring) :
  sep ∉ s → split_second sep s = None.
Proof.
  induction s as [|c s IH]; [done|]. intros Hin. simpl.
  destruct (c =? sep)%N eqn:Hc.
  - apply N.eqb_eq in Hc as ->. exfalso. apply Hin. left.
  - apply IH. intros Hs. apply Hin. by right.
Qed.

Section protocol_more.
Context `{Runtime} `{Utility}.

Lemma login_token_expired env plr d st s :
  field d "sess" = JStr s → s ≠ [] →
  matching "session" (JStr s) (users (db st)) = []
  ∨ num_gt (parseInt_opt (split_second 124 s)) (now env) = false →
  handleLogin env plr d st
  = send plr "Warn" (Text "Session expired! login again") true st.
Proof.
  intros Hs Hne Hcase. unfold handleLogin. rewrite Hs. simpl.
  rewrite bool_decide_eq_false_2 by done. simpl. unfold loginSession.
  rewrite dbGet_query; [|done|by simpl; rewrite bool_decide_eq_false_2].
  destruct (matching "session" (JStr s) (users (db st)))
    as [|[dref userDObj] rest] eqn:Hm; simpl; [done|].
  destruct Hcase as [Hcase|Hcase]; [done|].
  rewrite (matching_head _ _ _ _ _ _ Hm). simpl. by rewrite Hcase.
Qed.

Lemma handleLogin_keeps env plr d st :
  db (handleLogin env plr d st) = db st
  ∧ pIds (handleLogin env plr d st) = pIds st.
Proof.
  unfold handleLogin, loginSession, loginPassword.
  repeat case_match; try done; apply respawnOrAuth_keeps.
Qed.

(** X12.  The handler throws exactly when it has to read a property of a
    payload that is not there: the message is a [Login], a [Register] or a
    [Search] and carries no data.  [Logout], [Cancel-Search] and
    unrecognized messages are handled without data. *)
Theorem handleMSG_throws_iff env plr msg st :
  handleMSG env plr msg st = None
  ↔ data msg = None
    ∧ (type msg = JStr (jstr "Login") ∨ type msg = JStr (jstr "Register")
       ∨ type msg = JStr (jstr "Search")).
Proof.
  unfold handleMSG.
  repeat case_bool_decide; destruct (data msg); simpl;
    split; try done; try (intros [? ?]; done); try tauto.
  all: intros [_ [Ht|[Ht|Ht]]]; rewrite Ht in *;
    try done; exfalso;
    match goal with
    | Hn : JStr _ ≠ JStr _ |- _ => (by apply Hn)
    | Heq : JStr _ = JStr _ |- _ => (vm_compute in Heq; discriminate Heq)
    end.
Qed.

(** X13.  What a message can change.  No message changes the id counter.
    Only [Register] and [Logout] write to the store.  Only [Login] and
    [Logout] change the active set or the stale map. *)
Theorem handler_frames env plr msg st st' :
  handleMSG env plr msg st = Some st' →
  pIds st' = pIds st
  ∧ (type msg ≠ JStr (jstr "Register") → type msg ≠ JStr (jstr "Logout") →
     db st' = db st)
  ∧ (type msg ≠ JStr (jstr "Login") → type msg ≠ JStr (jstr "Logout") →
     players st' = players st ∧ stalePlayers st' = stalePlayers st).
Proof.
  unfold handleMSG. repeat case_bool_decide.
  - destruct (data msg) as [d|]; [|done]. intros [= <-].
    destruct (handleLogin_keeps env plr d st) as [Hd Hp].
    split_and!; done.
  - destruct (data msg) as [d|]; [|done]. intros [= <-].
    destruct (handleRegister_cases env plr d st)
      as [[text ->]|(nm & em & pw & Hp)]; [done|].
    rewrite (handleRegister_passes env plr d st nm em pw Hp). done.
  - intros [= <-]. split_and!; [|done|done].
    unfold handleLogout, fireDisconnection. by repeat case_match.
  - destruct (data msg) as [d|]; [|done]. intros [= <-].
    unfold handleSearch. by case_match.
  - by intros [= <-].
  - by intros [= <-].
Qed.

(** X14.  A login with a session token that the store knows and whose
    expiry is after the current time: if the account found is blocked the
    player gets one terminal warning and nothing else changes; otherwise
    the player is authenticated under the name and the key of the account
    found, with the queue of the payload, by respawn or on the player
    itself, with the effects spelled out in [authenticates].  The account
    found is the first of the matching accounts in the order of
    [Object.keys]. *)
Theorem login_session_outcomes env plr d st s dref userDObj rest :
  field d "sess" = JStr s → s ≠ [] →
  matching "session" (JStr s) (users (db st)) = (dref, userDObj) :: rest →
  num_gt (parseInt_opt (split_second 124 s)) (now env) = true →
  let st' := handleLogin env plr d st in
  (truthy (field userDObj "isBlocked") = true →
     only_replies (Send plr "Warn" (Text "Your are blocked by admin") true)
       st st')
  ∧ (truthy (field userDObj "isBlocked") = false →
     st' = respawnOrAuth plr (field userDObj "name") dref
             (field d "queue") st
     ∧ authenticates plr (field userDObj "name") dref (field d "queue")
         st st').
Proof.
  intros Hs Hne Hm Hexp st'. subst st'. unfold handleLogin. rewrite Hs.
  simpl. rewrite bool_decide_eq_false_2 by done. simpl. unfold loginSession.
  rewrite dbGet_query; [|done|by simpl; rewrite bool_decide_eq_false_2].
  rewrite Hm. simpl. rewrite (matching_head _ _ _ _ _ _ Hm). simpl.
  rewrite Hexp. split; intros ->; [apply send_only_replies|].
  split; [done|apply respawnOrAuth_authenticates].
Qed.

(** X15.  A session token without a bar has no expiry and is always turned
    away as expired; so is the marker ["null|0"] that [Logout] writes, at
    any time that is not negative. *)
Theorem token_without_expiry env plr d st s :
  field d "sess" = JStr s → s ≠ [] →
  124%N ∉ s ∨ (s = jstr "null|0" ∧ 0 ≤ now env) →
  only_replies
    (Send plr "Warn" (Text "Session expired! login again") true)
    st (handleLogin env plr d st).
Proof.
  intros Hs Hne Hcase.
  rewrite (login_token_expired env plr d st s Hs Hne);
    [apply send_only_replies|].
  right. destruct Hcase as [Hbar|[-> Hnow]].
  - by rewrite split_second_no_sep.
  - simpl. apply Z.ltb_ge. done.
Qed.

(** X16.  Logout ends the session: once a player has logged out, a login
    with a session token that belonged to that player's account only, and
    is not the marker itself, is turned away as expired. *)
Theorem logout_invalidates_session env p st plr d t :
  field d "sess" = JStr t → t ≠ [] → t ≠ jstr "null|0" →
  (∀ k dc, users (db st) !! k = Some dc → field dc "session" = JStr t →
           k = dbRef_of st p) →
  let st1 := handleLogout p st in
  only_replies
    (Send plr "Warn" (Text "Session expired! login again") true)
    st1 (handleLogin env plr d st1).
Proof.
  intros Hs Hne Hmark Honly st1.
  rewrite (login_token_expired env plr d st1 t Hs Hne);
    [apply send_only_replies|].
  left.
  assert (db st1 = dbSet (db st) UPDATE (User (dbRef_of st p))
            (DDoc {["session"%string := JStr (jstr "null|0")]})) as ->.
  { subst st1. unfold handleLogout, fireDisconnection.
    by repeat case_match. }
  simpl. set (key := dbRef_of st p).
  destruct (matching _ _ _) as [|[k dc] rest] eqn:Hm; [done|]. exfalso.
  assert ((k, dc) ∈ (k, dc) :: rest) as Hin by left.
  rewrite <- Hm in Hin.
  apply elem_of_matching in Hin as [Hin Hf].
  destruct (decide (key = k)) as [<-|Hk].
  - rewrite lookup_insert_eq in Hin. injection Hin as <-.
    unfold field in Hf.
    rewrite (lookup_union_Some_l _ _ _ (JStr (jstr "null|0"))) in Hf
      by apply lookup_singleton_eq.
    simpl in Hf. congruence.
  - rewrite lookup_insert_ne in Hin by done.
    apply Hk. symmetry. by eapply Honly.
Qed.

End protocol_more.

(** *** Status updates *)

(** X17.  A status update goes to every active player other than the one
    whose status changed, carrying that player's status and directory key,
    and never to that player; nothing else changes. *)
Theorem pushStatusUpdate_others exPlr st :
  let data := StatusOf (status_of st exPlr) (dbRef_of st exPlr) in
  let st' := pushStatusUpdate exPlr st in
  st' = sent_to "Status-Update" data
          (filter (λ p, p ≠ exPlr) (players st)) st
  ∧ (∀ q, q ∈ players st → q ≠ exPlr →
       Send q "Status-Update" data false ∈ trace st')
  ∧ (∀ e, e ∈ trace st' → e ∈ trace st ∨
       ∃ q, q ≠ exPlr ∧ q ∈ players st
            ∧ e = Send q "Status-Update" data false).
Proof.
  intros data st'.
  assert (st' = sent_to "Status-Update" data
                  (filter (λ p, p ≠ exPlr) (players st)) st) as Heq.
  { subst st'. unfold pushStatusUpdate. rewrite broadcast_sent_to.
    f_equal. apply filter_ext_list. intros q. simpl.
    rewrite bool_decide_eq_true. crush. }
  split; [done|]. rewrite Heq. simpl. split.
  - intros q Hq Hne. apply elem_of_app. right.
    apply list_elem_of_fmap. exists q. split; [done|].
    apply list_elem_of_filter. done.
  - intros e [He|He]%elem_of_app; [by left|]. right.
    apply list_elem_of_fmap in He as (q & -> & Hq).
    apply list_elem_of_filter in Hq as [Hne Hq]. eauto.
Qed.

(** *** Ephemeral ids *)











Section ids.
Context `{Runtime} `{Utility}.





End ids.

End Props.

(** ** The run, evaluated *)

Module Scenario.
Import JS Store World Master Sample Spec Run Props.

Ltac run :=
  match goal with
  | |- ?P => apply (bool_decide_unpack P); vm_compute; exact I
  end.

(** The built-ins on small inputs. *)

Example trim_both_ends : trim (jstr "  ab  ") = jstr "ab".
Proof. reflexivity. Qed.

Example trim_all_spaces : trim (jstr "    ") = [].
Proof. reflexivity. Qed.

Example parseInt_plain : parseInt (jstr "500") = Some 500.
Proof. reflexivity. Qed.

Example parseInt_prefix : parseInt (jstr " -42px") = Some (-42).
Proof. reflexivity. Qed.

Example parseInt_hex : parseInt (jstr "0x1F") = Some 31.
Proof. reflexivity. Qed.

Example parseInt_nan : parseInt (jstr "abc") = None.
Proof. reflexivity. Qed.

Example split_token : split_second 124 (jstr "tok|500") = Some (jstr "500").
Proof. reflexivity. Qed.

Example split_middle : split_second 124 (jstr "a|b|c") = Some (jstr "b").
Proof. reflexivity. Qed.

Example split_no_bar : split_second 124 (jstr "tok") = None.
Proof. reflexivity. Qed.

Example loose_null_undefined : loose_eq JNull JUndef = true.
Proof. reflexivity. Qed.

Example loose_null_zero : loose_eq JNull (JNum 0) = false.
Proof. reflexivity. Qed.

Example loose_number_string :
  loose_eq (JNum 123456) (JStr (jstr "123456")) = true.
Proof. reflexivity. Qed.

Example loose_number_other_string :
  loose_eq (JNum 123456) (JStr (jstr "654321")) = false.
Proof. reflexivity. Qed.

Example code_of_half : newAccessCode (1 # 2) = 549999.
Proof. reflexivity. Qed.

(** The sum is rounded before its integer part is taken: for this draw the
    exact sum has the integer part 102266, the code is 102267. *)
Example code_rounded_up :
  (RN rounded_up == rounded_up)%Q
  ∧ Qfloor (rounded_up * (999999 - 100000) + 100000)%Q = 102266
  ∧ newAccessCode rounded_up = 102267.
Proof. split_and!; by vm_compute. Qed.

(** The draws the scenario uses are doubles. *)
Example draws_are_doubles :
  (RN (random env0) == random env0)%Q
  ∧ (RN (random same_code) == random same_code)%Q.
Proof. split; by vm_compute. Qed.

(** A fraction below 1 that is no double can still be rounded up to the
    code 999999; the largest double below 1 cannot. *)
Example code_of_largest :
  newAccessCode (1 - 2 ^ (-80))%Q = 999999
  ∧ (RN (1 - 2 ^ (-53)) == 1 - 2 ^ (-53))%Q
  ∧ newAccessCode (1 - 2 ^ (-53))%Q = 999998.
Proof. split_and!; by vm_compute. Qed.

(** [Object.keys] on the object the store returns: array indices first, in
    numeric order; then the names the store reads as integers; then the
    other names by code units. *)
Example object_keys_order :
  (ordered (list_to_map ((λ k, (jstr k, ∅)) <$>
     ["b"; "10"; "007"; "9"; "-5"; "a"; "4294967295"; "B"]%string))).*1
  = jstr <$> ["9"; "10"; "-5"; "007"; "4294967295"; "B"; "a"; "b"]%string.
Proof. by vm_compute. Qed.

(** Of two accounts that carry the same session, a blocked one filed under
    [b] and one that is not blocked under [a], the login takes the one
    under [a]: the player is authenticated, not warned. *)
Example first_of_two_sessions :
  matching "session" (JStr (jstr "tok|2000")) (users (db w1))
  = [(jstr "a", alice_session); (jstr "b", blocked_session)]
  ∧ trace (handleLogin env0 0%nat token_login w1)
    = trace w1 ++ [PostAuth 0%nat (JStr (jstr "Alice")) (jstr "a") JUndef
                     false]
  ∧ dbRef_of (handleLogin env0 0%nat token_login w1) 0%nat = jstr "a".
Proof. split_and!; vm_compute; reflexivity. Qed.

Example code_of_zero : newAccessCode 0 = 100000.
Proof. reflexivity. Qed.

(** The run is a sequence of completed operations. *)

Lemma reachable_s2 : reachable s2.
Proof.
  eapply reach_step; [eapply reach_step; [apply (reach_initial db0)|]|].
  - apply (step_connect s0 7).
  - apply (step_message s1 env0 0%nat
             (mkMsg (JStr (jstr "Register")) (Some alice))); [run|reflexivity].
Qed.

Lemma reachable_s4 : reachable s4.
Proof.
  eapply reach_step; [eapply reach_step; [apply reachable_s2|]|].
  - apply (step_close s2 0%nat). run.
  - apply (step_connect s3 8).
Qed.

Example s4_registries :
  players s4 = [1%nat] ∧ stalePlayers s4 !! alice_key = Some 0%nat
  ∧ dbRef_of s4 0%nat = alice_key ∧ id_of s4 1%nat = 1.
Proof. repeat split; vm_compute; reflexivity. Qed.

(** Respawn of Alice's stale player by the second connection. *)
Lemma tryRespawn_spec_witness :
  Inv s4 ∧ 1%nat ∈ players s4
  ∧ let st' := (tryRespawn 1%nat (JStr (jstr "Alice")) alice_key JUndef s4).1 in
    stalePlayers s4 !! alice_key = Some 0%nat
    ∧ stalePlayers st' !! alice_key = None
    ∧ id_of st' 0%nat = 1 ∧ sock_of st' 0%nat = Some 8%nat
    ∧ dbRef_of st' 0%nat = alice_key
    ∧ id_of st' 1%nat = -1 ∧ sock_of st' 1%nat = None.
Proof.
  assert (Inv s4) as HI by exact (reachable_Inv s4 reachable_s4).
  assert (1%nat ∈ players s4) as Hp by run.
  split; [exact HI|]. split; [exact Hp|].
  destruct (tryRespawn_spec 1%nat (JStr (jstr "Alice")) alice_key JUndef s4)
    as (Hiff & _ & Hgone & Hyes).
  assert ((tryRespawn 1%nat (JStr (jstr "Alice")) alice_key JUndef s4).2
          = true) as Hres by (apply Hiff; exists 0%nat; reflexivity).
  destruct (Hyes HI Hp Hres)
    as (r & Hr & _ & Hsock & _ & Hid & _ & Hd & _ & Hps & Hpi & _).
  destruct (Hgone Hres) as (_ & Hdel & _).
  assert (r = 0%nat) as -> by (vm_compute in Hr; congruence).
  split; [reflexivity|].
  split; [rewrite Hdel; apply lookup_delete_eq|].
  split; [rewrite Hid; reflexivity|]. split; [rewrite Hsock; reflexivity|].
  split; [exact Hd|]. split; [exact Hpi|exact Hps].
Defined.

Example s_out_registries :
  players s_out = [] ∧ stalePlayers s_out = ∅ ∧ dbRef_of s_out 0%nat = [].
Proof. repeat split; vm_compute; reflexivity. Qed.

Lemma reachable_d4 : reachable d4.
Proof.
  eapply reach_step; [eapply reach_step; [eapply reach_step;
    [eapply reach_step; [apply reachable_s2|]|]|]|].
  - apply (step_connect s2 8).
  - apply (step_message d1 env0 1%nat
             (mkMsg (JStr (jstr "Login")) (Some alice_login)));
      [run|reflexivity].
  - apply (step_close d2 0%nat). run.
  - apply (step_close d3 1%nat). run.
Qed.

Example d2_both_active :
  players d2 = [0%nat; 1%nat]
  ∧ dbRef_of d2 0%nat = alice_key ∧ dbRef_of d2 1%nat = alice_key.
Proof. repeat split; vm_compute; reflexivity. Qed.

Example d3_first_stale : stalePlayers d3 !! alice_key = Some 0%nat.
Proof. vm_compute. reflexivity. Qed.

Example d4_registries :
  players d4 = [] ∧ stalePlayers d4 !! alice_key = Some 1%nat
  ∧ dbRef_of d4 0%nat = alice_key.
Proof. repeat split; vm_compute; reflexivity. Qed.

(** C1 as stated fails: two connections are authenticated as Alice, both
    drop, and the entry of the second replaces the entry of the first in the
    stale map; the first player still carries its persistent identity and
    is in neither registry. *)
Lemma overwritten_stale_neither : ¬ always_exactly_one.
Proof.
  intros Hall.
  assert (heap d4 !! 0%nat
          = Some (mkPlayer 0 None alice_key (JStr (jstr "Alice")) 0)) as Hh
    by (vm_compute; reflexivity).
  destruct (Hall d4 reachable_d4 _ _ Hh) as [[Hin _]|[_ [k Hk]]].
  - by vm_compute.
  - assert (players d4 = []) as Hp by (vm_compute; reflexivity).
    rewrite Hp in Hin. by apply elem_of_nil in Hin.
  - destruct (inv_stale _ (reachable_Inv d4 reachable_d4) _ _ Hk)
      as (_ & _ & o & Ho & Hd).
    rewrite Hh in Ho. injection Ho as <-. simpl in Hd. subst k.
    assert (stalePlayers d4 !! alice_key = Some 1%nat) as Hs
      by (vm_compute; reflexivity).
    rewrite Hs in Hk. discriminate Hk.
Qed.

Lemma registries_after_transition_witness :
  reachable s4
  ∧ ¬ (1%nat ∈ players s4 ∧ is_stale s4 1%nat)
  ∧ is_stale (fireDisconnection 0%nat false s2) 0%nat.
Proof.
  split; [exact reachable_s4|]. split.
  - exact (proj1 (registries_after_transition s4 reachable_s4) 1%nat).
  - destruct (registries_after_transition s2 reachable_s2)
      as (_ & _ & Hclose & _).
    apply (Hclose 0%nat); [run|by vm_compute].
Defined.

Lemma unrecognized_reply_witness :
  ¬ recognized (type ping)
  ∧ ∃ st', handleMSG env0 1%nat ping s4 = Some st'
      ∧ only_replies
          (Send 1%nat "Error" (Text "Invalid request!") false) s4 st'.
Proof.
  assert (¬ recognized (type ping)) as Hn.
  { unfold recognized. intros [Ht|[Ht|[Ht|[Ht|Ht]]]];
      vm_compute in Ht; discriminate Ht. }
  split; [exact Hn|]. exact (unrecognized_reply env0 1%nat ping s4 Hn).
Defined.

Lemma login_session_no_fallback_witness :
  field stale_token "sess" = JStr (jstr "tok|500")
  ∧ jstr "tok|500" ≠ []
  ∧ only_replies
      (Send 1%nat "Warn" (Text "Session expired! login again") true)
      s4 (handleLogin env0 1%nat stale_token s4).
Proof.
  assert (field stale_token "sess" = JStr (jstr "tok|500")) as Hs
    by reflexivity.
  assert (jstr "tok|500" ≠ []) as Hne by (vm_compute; discriminate).
  split; [exact Hs|]. split; [exact Hne|].
  destruct (login_session_no_fallback env0 1%nat stale_token s4 _ Hs Hne)
    as (_ & _ & _ & Hexp).
  apply Hexp. right. vm_compute. reflexivity.
Defined.

Lemma login_password_outcomes_witness :
  truthy (field wrong_pass "sess") && is_string (field wrong_pass "sess")
  = false
  ∧ only_replies
      (Send 1%nat "Error" (Text "Oh! It's wrong login password.") true)
      s4 (handleLogin env0 1%nat wrong_pass s4)
  ∧ truthy (field alice_login "sess") && is_string (field alice_login "sess")
    = false
  ∧ authenticates 1%nat (JStr (jstr "Alice")) alice_key JUndef
      s4 (handleLogin env0 1%nat alice_login s4)
  ∧ authenticates 1%nat (JStr (jstr "Alice")) alice_key JUndef
      d1 (handleLogin env0 1%nat alice_login d1).
Proof.
  assert (truthy (field wrong_pass "sess")
          && is_string (field wrong_pass "sess") = false) as Hs
    by reflexivity.
  assert (truthy (field alice_login "sess")
          && is_string (field alice_login "sess") = false) as Hs'
    by reflexivity.
  split; [exact Hs|]. split; [|split; [exact Hs'|split]].
  - destruct (login_password_outcomes env0 1%nat wrong_pass s4 Hs)
      as (_ & _ & Hdoc).
    assert (users (db s4) !! loginKey (field wrong_pass "email")
            = Some alice_doc) as Hu by run.
    apply (Hdoc alice_doc Hu). run.
  - destruct (login_password_outcomes env0 1%nat alice_login s4 Hs')
      as (_ & _ & Hdoc).
    assert (users (db s4) !! loginKey (field alice_login "email")
            = Some alice_doc) as Hu by run.
    destruct (Hdoc alice_doc Hu) as (_ & _ & Hok).
    exact (proj2 (Hok ltac:(reflexivity) ltac:(reflexivity))).
  - destruct (login_password_outcomes env0 1%nat alice_login d1 Hs')
      as (_ & _ & Hdoc).
    assert (users (db d1) !! loginKey (field alice_login "email")
            = Some alice_doc) as Hu by run.
    destruct (Hdoc alice_doc Hu) as (_ & _ & Hok).
    exact (proj2 (Hok ltac:(reflexivity) ltac:(reflexivity))).
Defined.

(** The two successful logins above, call by call: at [s4] Alice's stale
    player 0 takes over the socket of the connecting player 1; at [d1]
    nobody is stale and player 1 is authenticated itself. *)
Example login_respawns_at_s4 :
  trace (handleLogin env0 1%nat alice_login s4)
  = trace s4 ++ [SwitchState 0%nat (Some 8%nat);
                 PostAuth 0%nat (JStr (jstr "Alice")) alice_key JUndef true;
                 SwitchState 1%nat None]
  ∧ players (handleLogin env0 1%nat alice_login s4) = [0%nat]
  ∧ stalePlayers (handleLogin env0 1%nat alice_login s4) !! alice_key = None
  ∧ sock_of (handleLogin env0 1%nat alice_login s4) 0%nat = Some 8%nat
  ∧ sock_of (handleLogin env0 1%nat alice_login s4) 1%nat = None.
Proof. split_and!; vm_compute; reflexivity. Qed.

Example login_fresh_at_d1 :
  trace (handleLogin env0 1%nat alice_login d1)
  = trace d1 ++ [PostAuth 1%nat (JStr (jstr "Alice")) alice_key JUndef false]
  ∧ players (handleLogin env0 1%nat alice_login d1) = [0%nat; 1%nat]
  ∧ dbRef_of (handleLogin env0 1%nat alice_login d1) 1%nat = alice_key.
Proof. split_and!; vm_compute; reflexivity. Qed.

Lemma register_gate_loose_witness :
  regAccessCode (db open_gate) = None
  ∧ field (∅ : gmap string jsval) "access" = JUndef
  ∧ handleRegister env0 0%nat ∅ open_gate
    = registerChecked env0 0%nat ∅ open_gate
  ∧ StringToNumber (jstr "123456") = Some 123456
  ∧ handleRegister env0 0%nat alice s1 = registerChecked env0 0%nat alice s1.
Proof.
  split; [reflexivity|]. split; [reflexivity|].
  split.
  - apply (proj1 (register_gate_loose env0 0%nat ∅ open_gate));
      [reflexivity|right; reflexivity].
  - split; [reflexivity|].
    apply (proj1 (proj2 (register_gate_loose env0 0%nat alice s1))
             123456 (jstr "123456")); reflexivity.
Defined.

(** C5.  The two length guards of [case "Register"] read
    [data.name.length] on the name as received; [data.name =
    data.name.trim()] comes after them.  So the length is not measured
    after trimming: with a valid access code, the name of two letters and
    four spaces has six characters, passes both guards, and the account is
    stored under the two-letter name; and the name of four spaces is stored
    as the empty name.  Neither request is turned away. *)
Theorem register_name_checked_untrimmed :
  ¬ name_measured_after_trim
  ∧ accessMatches s1 (field padded "access") = true
  ∧ field padded "name" = JStr (jstr "ab    ")
  ∧ length (trim (jstr "ab    ")) = 2%nat
  ∧ (∀ text, handleRegister env0 0%nat padded s1
             ≠ send 0%nat "Error" (Text text) true s1)
  ∧ users (db (handleRegister env0 0%nat padded s1)) !! alice_key
      ≫= (.!! "name"%string)
    = Some (JStr (jstr "ab"))
  ∧ accessMatches s1 (field blank "access") = true
  ∧ field blank "name" = JStr (jstr "    ")
  ∧ (∀ text, handleRegister env0 0%nat blank s1
             ≠ send 0%nat "Error" (Text text) true s1)
  ∧ users (db (handleRegister env0 0%nat blank s1)) !! alice_key
      ≫= (.!! "name"%string)
    = Some (JStr []).
Proof.
  assert (∀ text, handleRegister env0 0%nat padded s1
                  ≠ send 0%nat "Error" (Text text) true s1) as Hpadded.
  { intros text Heq%(f_equal (λ st, length (trace st))).
    vm_compute in Heq. discriminate Heq. }
  split.
  { intros Hall.
    destruct (Hall env0 0%nat padded s1) as (nm & Hnm & Hlen);
      [reflexivity|exact Hpadded|].
    vm_compute in Hnm. injection Hnm as <-. vm_compute in Hlen. lia. }
  split; [reflexivity|]. split; [reflexivity|]. split; [reflexivity|].
  split; [exact Hpadded|]. split; [vm_compute; reflexivity|].
  split; [reflexivity|]. split; [reflexivity|].
  split; [|vm_compute; reflexivity].
  intros text Heq%(f_equal (λ st, length (trace st))).
  vm_compute in Heq. discriminate Heq.
Qed.

Lemma register_name_length_witness :
  accessMatches s1 (field alice "access") = true
  ∧ ∃ nm, field alice "name" = JStr nm ∧ (4 ≤ length nm ≤ 20)%nat.
Proof.
  assert (accessMatches s1 (field alice "access") = true) as Ha
    by reflexivity.
  split; [exact Ha|].
  apply (proj1 (register_name_length env0 0%nat alice s1 Ha)).
  intros text Heq%(f_equal (λ st, length (trace st))).
  vm_compute in Heq. discriminate Heq.
Defined.

(** C4.  The registration of Alice consumes the code 123456; the rotation
    draws 123456 again; Bob's registration with the consumed code is not
    rejected and creates his account. *)
Theorem register_code_reused :
  (0 <= random same_code)%Q ∧ (random same_code < 1)%Q
  ∧ regAccessCode (db s1) = Some (JNum 123456)
  ∧ field alice_num "access" = JNum 123456
  ∧ is_Some (users (db r1) !! alice_key)
  ∧ regAccessCode (db r1) = Some (JNum 123456)
  ∧ field bob "access" = JNum 123456
  ∧ r3 ≠ send 1%nat "Error" (Text "Access code is invalid!") true r2
  ∧ is_Some (users (db r3) !! jstr "md5:bob@c.org").
Proof.
  split; [by vm_compute|]. split; [by vm_compute|].
  split_and!; try run.
  intros Heq%(f_equal (λ st, length (trace st))).
  vm_compute in Heq. discriminate Heq.
Qed.

(** Witnesses of the further properties. *)

Lemma alice_passes :
  passes_register s1 alice (jstr "Alice") (jstr "A@B.com") (jstr "Secret#1").
Proof.
  unfold passes_register.
  split_and!; try reflexivity; try (by vm_compute); try run.
Qed.

Lemma store_round_trip_witness :
  storable alice_doc ∧ JNum 549999 ≠ JNull ∧ JNum 549999 ≠ JUndef
  ∧ dbGet (dbSet db0 WRITE (User alice_key) (DDoc alice_doc))
      (User alice_key) "" JUndef = DDoc alice_doc.
Proof.
  assert (storable alice_doc) as Hs.
  { split; [run|]. intros f v Hf. unfold alice_doc, accountDoc in Hf.
    repeat (apply lookup_insert_Some in Hf as [[_ <-]|[_ Hf]]; [done|]).
    by rewrite lookup_empty in Hf. }
  split; [exact Hs|]. split; [done|]. split; [done|].
  exact (proj1 (store_round_trip db0 alice_key alice_doc (JNum 549999) Hs
                  ltac:(done) ltac:(done))).
Defined.

Lemma filtered_read_witness :
  dbGet db_session Users "session" (JStr []) = dbGet db_session Users "" JUndef
  ∧ ∀ ds, dbGet db_session Users "session" (JStr (jstr "tok|2000")) = DDocs ds →
      (alice_key, alice_session) ∈ ds.
Proof.
  split.
  - apply (proj1 (filtered_read db_session Users "session" (JStr []))).
    right. reflexivity.
  - intros ds Hds.
    destruct (proj2 (filtered_read db_session Users "session"
                       (JStr (jstr "tok|2000"))) ltac:(done) ltac:(done))
      as [_ Hall].
    apply (Hall ds Hds). split; [run|run].
Defined.

Lemma newAccessCode_range_witness :
  (0 <= rounded_up)%Q ∧ (rounded_up < 1)%Q ∧ (RN rounded_up == rounded_up)%Q
  ∧ 100000 ≤ newAccessCode rounded_up ∧ newAccessCode rounded_up ≤ 999998.
Proof.
  assert (0 <= rounded_up)%Q as H0 by (by vm_compute).
  assert (rounded_up < 1)%Q as H1 by (by vm_compute).
  assert (RN rounded_up == rounded_up)%Q as Hd by (by vm_compute).
  split; [exact H0|]. split; [exact H1|]. split; [exact Hd|].
  destruct (newAccessCode_range rounded_up H0 H1) as [[Hlo _] Hhi].
  split; [exact Hlo|exact (Hhi Hd)].
Defined.

Lemma register_success_witness :
  passes_register s1 alice (jstr "Alice") (jstr "A@B.com") (jstr "Secret#1")
  ∧ regAccessCode (db s2) = Some (JNum 549999)
  ∧ users (db s2)
    = <[alice_key := alice_doc]> (users (db s1)).
Proof.
  split; [exact alice_passes|].
  destruct alice_passes as (Ha & Hn & He & Hp & Hn0 & He0 & Hp0 & Hl & Hvp
                            & Hve & Hfree).
  destruct (register_success env0 0%nat alice s1 _ _ _ Ha Hn He Hp Hn0 He0
              Hp0 Hl Hvp Hve Hfree) as (Hu & Hc & _).
  split; [exact Hc|exact Hu].
Defined.

Lemma register_keeps_accounts_witness :
  users (db r2) !! alice_key = Some alice_doc
  ∧ users (db r3) !! alice_key = Some alice_doc.
Proof.
  assert (users (db r2) !! alice_key = Some alice_doc) as Hk by run.
  split; [exact Hk|].
  exact (register_keeps_accounts env0 1%nat bob r2 alice_key alice_doc Hk).
Defined.

Lemma register_then_login_witness :
  passes_register s1 alice (jstr "Alice") (jstr "A@B.com") (jstr "Secret#1")
  ∧ (handleLogin env0 1%nat alice_login s2
     = respawnOrAuth 1%nat (JStr (jstr "Alice")) alice_key JUndef s2
     ∧ authenticates 1%nat (JStr (jstr "Alice")) alice_key JUndef
         s2 (handleLogin env0 1%nat alice_login s2))
  ∧ only_replies
      (Send 1%nat "Error" (Text "Oh! It's wrong login password.") true)
      s2 (handleLogin env0 1%nat wrong_pass s2).
Proof.
  split; [exact alice_passes|]. split.
  - apply (proj1 (register_then_login env0 0%nat alice s1 _ _ _ env0 1%nat
                    alice_login (jstr "A@B.com") alice_passes
                    ltac:(reflexivity) ltac:(reflexivity)
                    ltac:(reflexivity))).
    reflexivity.
  - apply (proj2 (register_then_login env0 0%nat alice s1 _ _ _ env0 1%nat
                    wrong_pass (jstr "A@B.com") alice_passes
                    ltac:(reflexivity) ltac:(reflexivity)
                    ltac:(reflexivity))).
    run.
Defined.

Lemma register_twice_witness :
  passes_register s1 alice (jstr "Alice") (jstr "A@B.com") (jstr "Secret#1")
  ∧ accessMatches s2 (field alice_again "access") = true
  ∧ registerKey (jstr " a@b.COM ") = registerKey (jstr "A@B.com")
  ∧ only_replies
      (Send 1%nat "Error"
         (Text "User already exists! Please login to continue.") true)
      s2 (handleRegister env0 1%nat alice_again s2).
Proof.
  split; [exact alice_passes|]. split; [reflexivity|].
  split; [reflexivity|].
  apply (register_twice env0 0%nat alice s1 _ _ _ env0 1%nat alice_again
           (jstr "Alice2") (jstr " a@b.COM ") (jstr "Secret#3")
           alice_passes); try reflexivity; try run.
Defined.

Lemma stored_name_trimmed_witness :
  passes_register s1 alice (jstr "Alice") (jstr "A@B.com") (jstr "Secret#1")
  ∧ ∃ dc stored,
      users (db s2) !! registerKey (jstr "A@B.com") = Some dc
      ∧ field dc "name" = JStr stored ∧ (length stored ≤ 20)%nat.
Proof.
  split; [exact alice_passes|].
  destruct (stored_name_trimmed env0 0%nat alice s1 _ _ _ alice_passes)
    as (dc & stored & Hdc & Hf & _ & Hlen & _).
  exists dc, stored. split; [exact Hdc|]. split; [exact Hf|exact Hlen].
Defined.

Lemma tryRespawn_once_witness :
  (tryRespawn 1%nat (JStr (jstr "Alice")) alice_key JUndef s4).2 = true
  ∧ let st1 := (tryRespawn 1%nat (JStr (jstr "Alice")) alice_key JUndef s4).1 in
    tryRespawn 1%nat (JStr (jstr "Alice")) alice_key JUndef st1 = (st1, false).
Proof.
  assert ((tryRespawn 1%nat (JStr (jstr "Alice")) alice_key JUndef s4).2
          = true) as Hres by reflexivity.
  split; [exact Hres|].
  exact (tryRespawn_once 1%nat (JStr (jstr "Alice")) alice_key JUndef s4
           1%nat (JStr (jstr "Alice")) JUndef Hres).
Defined.

Lemma handler_frames_witness :
  handleMSG env0 1%nat ping s4 = Some (handleDefault 1%nat s4)
  ∧ pIds (handleDefault 1%nat s4) = pIds s4
  ∧ db (handleDefault 1%nat s4) = db s4.
Proof.
  assert (handleMSG env0 1%nat ping s4 = Some (handleDefault 1%nat s4))
    as Hh by reflexivity.
  split; [exact Hh|].
  destruct (handler_frames env0 1%nat ping s4 _ Hh) as (Hp & Hd & _).
  split; [exact Hp|]. apply Hd; intros Ht; vm_compute in Ht; discriminate Ht.
Defined.

Lemma login_session_outcomes_witness :
  field token_login "sess" = JStr (jstr "tok|2000")
  ∧ jstr "tok|2000" ≠ []
  ∧ matching "session" (JStr (jstr "tok|2000")) (users (db t1))
    = [(alice_key, alice_session)]
  ∧ num_gt (parseInt_opt (split_second 124 (jstr "tok|2000"))) (now env0)
    = true
  ∧ (handleLogin env0 0%nat token_login t1
     = respawnOrAuth 0%nat (JStr (jstr "Alice")) alice_key JUndef t1
     ∧ authenticates 0%nat (JStr (jstr "Alice")) alice_key JUndef
         t1 (handleLogin env0 0%nat token_login t1))
  ∧ matching "session" (JStr (jstr "tok|2000")) (users (db w1))
    = [(jstr "a", alice_session); (jstr "b", blocked_session)]
  ∧ authenticates 0%nat (JStr (jstr "Alice")) (jstr "a") JUndef
      w1 (handleLogin env0 0%nat token_login w1).
Proof.
  assert (matching "session" (JStr (jstr "tok|2000")) (users (db t1))
          = [(alice_key, alice_session)]) as Hm by (vm_compute; reflexivity).
  assert (matching "session" (JStr (jstr "tok|2000")) (users (db w1))
          = [(jstr "a", alice_session); (jstr "b", blocked_session)]) as Hw
    by (vm_compute; reflexivity).
  split; [reflexivity|]. split; [done|]. split; [exact Hm|].
  split; [reflexivity|]. split; [|split; [exact Hw|]].
  - apply (proj2 (login_session_outcomes env0 0%nat token_login t1
                    (jstr "tok|2000") alice_key alice_session []
                    ltac:(reflexivity) ltac:(done) Hm ltac:(reflexivity))).
    reflexivity.
  - apply (proj2 (login_session_outcomes env0 0%nat token_login w1
                    (jstr "tok|2000") (jstr "a") alice_session
                    [(jstr "b", blocked_session)]
                    ltac:(reflexivity) ltac:(done) Hw ltac:(reflexivity))).
    reflexivity.
Defined.

Lemma token_without_expiry_witness :
  field bare_token "sess" = JStr (jstr "token") ∧ (124%N ∉ jstr "token")
  ∧ only_replies
      (Send 0%nat "Warn" (Text "Session expired! login again") true)
      t1 (handleLogin env0 0%nat bare_token t1).
Proof.
  assert (124%N ∉ jstr "token") as Hbar by run.
  split; [reflexivity|]. split; [exact Hbar|].
  apply (token_without_expiry env0 0%nat bare_token t1 (jstr "token"));
    [reflexivity|done|by left].
Defined.

Lemma logout_invalidates_session_witness :
  dbRef_of t2 0%nat = alice_key
  ∧ users (db t2) !! alice_key = Some alice_session
  ∧ only_replies
      (Send 1%nat "Warn" (Text "Session expired! login again") true)
      (handleLogout 0%nat t2)
      (handleLogin env0 1%nat token_login (handleLogout 0%nat t2)).
Proof.
  assert (dbRef_of t2 0%nat = alice_key) as Hk by (vm_compute; reflexivity).
  assert (users (db t2) = {[alice_key := alice_session]}) as Hu
    by reflexivity.
  split; [exact Hk|]. split; [by rewrite Hu, lookup_singleton_eq|].
  apply (logout_invalidates_session env0 0%nat t2 1%nat token_login
           (jstr "tok|2000")); [reflexivity|done|by vm_compute|].
  intros k dc Hdc _. rewrite Hu in Hdc.
  apply lookup_singleton_Some in Hdc as [<- _]. by rewrite Hk.
Defined.


End Scenario.
